(** * Audio channel queue engine (audio-channel-queue), shallow embedding

    The documentation site describes the public API of the
    [audio-channel-queue] library: per-channel queues whose index 0 is the
    in-flight item, queue manipulation results, priority queuing, queue
    limits, retries, volume ducking and event listeners.  The engine itself
    is not part of this repository, so every operation below is modelled
    from the documented signatures, their comments and the design document;
    each such definition says so in its doc comment. *)

From Stdlib Require Import ZArith QArith Lia.
From stdpp Require Import base list gmap strings.

Open Scope Z_scope.

(* ------------------------------------------------------------------ *)
(** ** Data model *)

(** [AudioQueueOptions] of [queueAudio] (api-reference/queue-management.md). *)
Record AudioQueueOptions := mkOptions {
  addToFront : bool;
  loop : bool;
  maxQueueSizeOpt : option nat;
  priority : bool;
  volumeOpt : option Q
}.

Definition defaultOptions : AudioQueueOptions :=
  mkOptions false false None false None.

(** A queue entry: its source, the options captured at enqueue time and
    the runtime flag [isPlaying] of the in-flight item. *)
Record QueueEntry := mkEntry {
  src : string;
  options : AudioQueueOptions;
  isPlaying : bool
}.

(** Playback state of a channel (design section 4.2). *)
Inductive Status := Idle | Loading | Playing | Paused.

#[global] Instance Status_eq_dec : EqDecision Status.
Proof. solve_decision. Defined.

Record Channel := mkChannel {
  queue : list QueueEntry;
  status : Status;
  volume : Q;
  duckState : option Q;
  maxQueueSize : option nat
}.

(** A fresh channel, as created lazily on first use. *)
Definition emptyChannel : Channel := mkChannel [] Idle 1%Q None None.

(** [QueueConfig] (api-reference/event-listeners.md, setQueueConfig). *)
Record QueueConfig := mkQueueConfig {
  defaultMaxQueueSize : option nat;
  dropOldestWhenFull : bool;
  showQueueWarnings : bool
}.

(** Documented defaults: unlimited, reject new items, show warnings. *)
Definition defaultQueueConfig : QueueConfig := mkQueueConfig None false true.

Inductive QueueError :=
| InvalidIndexError (index : Z)
| QueueFullError (limit : nat).

(** [QueueItem] of a queue snapshot (advanced-queue-manipulation.md). *)
Record QueueItem := mkItem {
  itemSrc : string;
  isCurrentlyPlaying : bool;
  isLooping : bool
}.

Definition toItem (e : QueueEntry) : QueueItem :=
  mkItem (src e) (isPlaying e) (loop (options e)).

Definition snapshot (ch : Channel) : list QueueItem := map toItem (queue ch).

(** [QueueManipulationResult]: success flag, optional error, optional
    snapshot of the queue after a successful operation. *)
Record QueueManipulationResult := mkResult {
  success : bool;
  error : option QueueError;
  updatedQueue : option (list QueueItem)
}.

Definition failWith (e : QueueError) : QueueManipulationResult :=
  mkResult false (Some e) None.

Definition okWith (ch : Channel) : QueueManipulationResult :=
  mkResult true None (Some (snapshot ch)).

Definition setQueue (ch : Channel) (q : list QueueEntry) : Channel :=
  mkChannel q (status ch) (volume ch) (duckState ch) (maxQueueSize ch).

Definition setStatus (ch : Channel) (s : Status) : Channel :=
  mkChannel (queue ch) s (volume ch) (duckState ch) (maxQueueSize ch).

(* ------------------------------------------------------------------ *)
(** ** Array helpers with JavaScript [splice] semantics *)

(** [arr.splice(i, 1)] *)
Definition remove_at {A} (i : nat) (l : list A) : list A :=
  take i l ++ drop (S i) l.

(** [arr.splice(i, 0, x)] *)
Definition insert_at {A} (i : nat) (x : A) (l : list A) : list A :=
  take i l ++ x :: drop i l.

(* ------------------------------------------------------------------ *)
(** ** Advanced queue manipulation (advanced-queue-manipulation.md) *)

(** A slot that may be manipulated: index 1 and higher, inside the queue. *)
Definition validSlot (q : list QueueEntry) (i : Z) : bool :=
  (1 <=? i) && (i <? Z.of_nat (length q)).

(** Modelled from the spec: [removeQueuedItem(queuedSlotNumber, channel)]
    fails with [InvalidIndexError] on index 0 or out of bounds, otherwise
    splices the slot out. *)
Definition removeQueuedItem (i : Z) (ch : Channel) : Channel * QueueManipulationResult :=
  if validSlot (queue ch) i then
    let ch' := setQueue ch (remove_at (Z.to_nat i) (queue ch)) in
    (ch', okWith ch')
  else (ch, failWith (InvalidIndexError i)).

(** Modelled from the spec: [reorderQueue(from, to, channel)] splices the
    item out of [from] and back in at [to]; both indices must be valid. *)
Definition reorderQueue (from to : Z) (ch : Channel) : Channel * QueueManipulationResult :=
  if negb (validSlot (queue ch) from) then (ch, failWith (InvalidIndexError from))
  else if negb (validSlot (queue ch) to) then (ch, failWith (InvalidIndexError to))
  else
    match queue ch !! Z.to_nat from with
    | Some e =>
        let ch' := setQueue ch
          (insert_at (Z.to_nat to) e (remove_at (Z.to_nat from) (queue ch))) in
        (ch', okWith ch')
    | None => (ch, failWith (InvalidIndexError from))
    end.

(** Modelled from the spec: [swapQueueItems(slotA, slotB, channel)]. *)
Definition swapQueueItems (a b : Z) (ch : Channel) : Channel * QueueManipulationResult :=
  if negb (validSlot (queue ch) a) then (ch, failWith (InvalidIndexError a))
  else if negb (validSlot (queue ch) b) then (ch, failWith (InvalidIndexError b))
  else
    match queue ch !! Z.to_nat a, queue ch !! Z.to_nat b with
    | Some ea, Some eb =>
        let ch' := setQueue ch (<[Z.to_nat a := eb]> (<[Z.to_nat b := ea]> (queue ch))) in
        (ch', okWith ch')
    | _, _ => (ch, failWith (InvalidIndexError a))
    end.

(** Modelled from the spec: [clearQueueAfterCurrent(channel)] keeps only
    the playing entry at index 0, or empties the queue if nothing plays. *)
Definition clearQueueAfterCurrent (ch : Channel) : Channel * QueueManipulationResult :=
  let q' := match queue ch with
            | e :: _ => if isPlaying e then [e] else []
            | [] => []
            end in
  let ch' := setQueue ch q' in
  (ch', okWith ch').

(* ------------------------------------------------------------------ *)
(** ** Queuing and playback (queue-management.md, design 4.1 and 4.2) *)

(** Modelled from the spec: the limit that applies to one enqueue: the
    call's own [maxQueueSize] option, else the channel's limit set by
    [setChannelQueueLimit], else [QueueConfig.defaultMaxQueueSize]. *)
Definition limitOf (cfg : QueueConfig) (ch : Channel) (opts : AudioQueueOptions) : option nat :=
  match maxQueueSizeOpt opts with
  | Some m => Some m
  | None =>
      match maxQueueSize ch with
      | Some m => Some m
      | None => defaultMaxQueueSize cfg
      end
  end.

(** An idle channel begins loading its index-0 entry, which becomes the
    in-flight item. *)
Definition startHead (ch : Channel) : Channel :=
  match status ch, queue ch with
  | Idle, e :: t =>
      mkChannel (mkEntry (src e) (options e) true :: t) Loading
        (volume ch) (duckState ch) (maxQueueSize ch)
  | _, _ => ch
  end.

(** Where a new entry goes: the end of the queue, or index 1 (right after
    the in-flight item) for [addToFront] and the legacy [priority]. *)
Definition placeEntry (opts : AudioQueueOptions) (e : QueueEntry) (q : list QueueEntry) : list QueueEntry :=
  if addToFront opts || priority opts then insert_at 1 e q else q ++ [e].

(** Modelled from the spec: [queueAudio(audioFile, channel, options)].
    A full queue rejects the item with [QueueFullError], or, when
    [dropOldestWhenFull] is set, evicts the oldest queued (non-playing)
    entry, index 1; with no such entry the item is rejected. *)
Definition queueAudio (cfg : QueueConfig) (s : string) (opts : AudioQueueOptions)
    (ch : Channel) : Channel * option QueueError :=
  let e := mkEntry s opts false in
  let accept q := (startHead (setQueue ch (placeEntry opts e q)), None) in
  match limitOf cfg ch opts with
  | Some m =>
      if (m <=? length (queue ch))%nat then
        if dropOldestWhenFull cfg then
          match queue ch with
          | _ :: _ :: _ => accept (remove_at 1 (queue ch))
          | _ => (ch, Some (QueueFullError m))
          end
        else (ch, Some (QueueFullError m))
      else accept (queue ch)
  | None => accept (queue ch)
  end.

Definition withFront (opts : AudioQueueOptions) : AudioQueueOptions :=
  mkOptions true (loop opts) (maxQueueSizeOpt opts) (priority opts) (volumeOpt opts).

(** [queueAudioPriority]: [queueAudio] with [addToFront]. *)
Definition queueAudioPriority (cfg : QueueConfig) (s : string) (opts : AudioQueueOptions)
    (ch : Channel) : Channel * option QueueError :=
  queueAudio cfg s (withFront opts) ch.

(** Modelled from the spec: [advance] drops index 0 and loads the next
    entry, or returns the channel to [Idle]. *)
Definition advance (ch : Channel) : Channel :=
  match queue ch with
  | _ :: t => startHead (mkChannel t Idle (volume ch) (duckState ch) (maxQueueSize ch))
  | [] => setStatus ch Idle
  end.

(** The native start signal: [Loading] becomes [Playing]. *)
Definition audioStarted (ch : Channel) : Channel :=
  if decide (status ch = Loading) then setStatus ch Playing else ch.

Definition pauseChannel (ch : Channel) : Channel :=
  if decide (status ch = Playing) then setStatus ch Paused else ch.

Definition resumeChannel (ch : Channel) : Channel :=
  if decide (status ch = Paused) then setStatus ch Playing else ch.

(** Natural end of the in-flight item: a looping item starts over, any
    other item completes and the queue advances. *)
Definition audioEnded (ch : Channel) : Channel :=
  match status ch, queue ch with
  | Playing, e :: _ => if loop (options e) then ch else advance ch
  | _, _ => ch
  end.

(** [stopCurrentAudioInChannel]: interrupt the current item and advance. *)
Definition stopCurrentAudioInChannel (ch : Channel) : Channel :=
  if decide (status ch = Idle) then ch else advance ch.

(** [stopAllAudioInChannel]: stop and clear the whole queue. *)
Definition stopAllAudioInChannel (ch : Channel) : Channel :=
  mkChannel [] Idle (volume ch) (duckState ch) (maxQueueSize ch).

(** [setChannelQueueLimit(channel, maxSize?)]. *)
Definition setChannelQueueLimit (m : option nat) (ch : Channel) : Channel :=
  mkChannel (queue ch) (status ch) (volume ch) (duckState ch) m.

(** Everything that can happen to one channel. *)
Inductive Op :=
| OpQueue (cfg : QueueConfig) (s : string) (opts : AudioQueueOptions)
| OpQueuePriority (cfg : QueueConfig) (s : string) (opts : AudioQueueOptions)
| OpRemove (i : Z)
| OpReorder (i j : Z)
| OpSwap (a b : Z)
| OpClearAfterCurrent
| OpStopAll
| OpStopCurrent
| OpStarted
| OpPause
| OpResume
| OpEnded
| OpSetLimit (m : option nat).

(** One step; the second component lists the sources whose playback
    started in this step (the payload of the start event). *)
Definition step (ch : Channel) (o : Op) : Channel * list string :=
  match o with
  | OpQueue cfg s opts => (fst (queueAudio cfg s opts ch), [])
  | OpQueuePriority cfg s opts => (fst (queueAudioPriority cfg s opts ch), [])
  | OpRemove i => (fst (removeQueuedItem i ch), [])
  | OpReorder i j => (fst (reorderQueue i j ch), [])
  | OpSwap a b => (fst (swapQueueItems a b ch), [])
  | OpClearAfterCurrent => (fst (clearQueueAfterCurrent ch), [])
  | OpStopAll => (stopAllAudioInChannel ch, [])
  | OpStopCurrent => (stopCurrentAudioInChannel ch, [])
  | OpStarted =>
      match status ch, queue ch with
      | Loading, e :: _ => (audioStarted ch, [src e])
      | _, _ => (ch, [])
      end
  | OpPause => (pauseChannel ch, [])
  | OpResume => (resumeChannel ch, [])
  | OpEnded => (audioEnded ch, [])
  | OpSetLimit m => (setChannelQueueLimit m ch, [])
  end.

Fixpoint run (ch : Channel) (ops : list Op) : Channel * list string :=
  match ops with
  | [] => (ch, [])
  | o :: rest =>
      let '(ch1, out1) := step ch o in
      let '(ch2, out2) := run ch1 rest in
      (ch2, out1 ++ out2)
  end.

(** Conditions under which the plain-enqueue ordering argument applies:
    only plain enqueues below the size limit, native start and end
    signals, pause, resume and limit changes. *)
Definition notFull (cfg : QueueConfig) (ch : Channel) (opts : AudioQueueOptions) : Prop :=
  match limitOf cfg ch opts with
  | Some m => (length (queue ch) < m)%nat
  | None => True
  end.

Definition fifoStepOk (ch : Channel) (o : Op) : Prop :=
  match o with
  | OpQueue cfg _ opts =>
      addToFront opts = false /\ priority opts = false /\ notFull cfg ch opts
  | OpStarted | OpEnded | OpPause | OpResume | OpSetLimit _ => True
  | _ => False
  end.

Fixpoint fifoRun (ch : Channel) (ops : list Op) : Prop :=
  match ops with
  | [] => True
  | o :: rest => fifoStepOk ch o /\ fifoRun (fst (step ch o)) rest
  end.

(** Sources handed to plain [queueAudio], in call order. *)
Fixpoint enqueuedSources (ops : list Op) : list string :=
  match ops with
  | [] => []
  | OpQueue _ s _ :: rest => s :: enqueuedSources rest
  | _ :: rest => enqueuedSources rest
  end.

(** Entries whose playback has not started yet. *)
Definition pendingEntries (ch : Channel) : list QueueEntry :=
  match status ch with
  | Playing | Paused => tail (queue ch)
  | _ => queue ch
  end.

Definition headPlaying (q : list QueueEntry) : bool :=
  match q with
  | e :: _ => isPlaying e
  | [] => false
  end.

(* ------------------------------------------------------------------ *)
(** ** Retry policy (docusaurus.config.ts, setRetryConfig/getRetryConfig) *)

Record RetryConfig := mkRetryConfig {
  baseDelay : N;
  enabled : bool;
  exponentialBackoff : bool;
  fallbackUrls : list string;
  maxRetries : nat;
  skipOnFailure : bool;
  timeoutMs : N
}.

(** The documented defaults of [RetryConfig]: 1 second base delay, retry
    enabled, exponential backoff (1s, 2s, 4s, 8s...), no fallback URLs,
    at most 3 retries, no skipping, 10 second load timeout. *)
Definition defaultRetryConfig : RetryConfig :=
  mkRetryConfig 1000%N true true [] 3 false 10000%N.

(** Per-entry progress of the retry manager. *)
Record RetryState := mkRetryState {
  attempts : nat;
  fallbackIndex : nat
}.

Definition initialRetryState : RetryState := mkRetryState 0 0.

Inductive RetryDecision :=
| UseFallback (url : string)
| ScheduleRetry (delayMs : N)
| TerminalError (attemptCount : nat) (skip : bool).

(** Modelled from the spec: [baseDelay * 2^attempt] with exponential
    backoff, flat [baseDelay] otherwise. *)
Definition retryDelay (cfg : RetryConfig) (attempt : nat) : N :=
  if exponentialBackoff cfg then (baseDelay cfg * 2 ^ N.of_nat attempt)%N else baseDelay cfg.

(** Modelled from the spec: policy evaluation on a load failure: next
    fallback URL first, then a scheduled retry while attempts remain, then
    the terminal error event. *)
Definition onLoadFailure (cfg : RetryConfig) (st : RetryState) : RetryDecision * RetryState :=
  match nth_error (fallbackUrls cfg) (fallbackIndex st) with
  | Some url => (UseFallback url, mkRetryState (attempts st) (S (fallbackIndex st)))
  | None =>
      if enabled cfg && (attempts st <? maxRetries cfg)%nat then
        (ScheduleRetry (retryDelay cfg (attempts st)), mkRetryState (S (attempts st)) (fallbackIndex st))
      else (TerminalError (attempts st) (skipOnFailure cfg), st)
  end.

(** The automatic retry loop for one entry whose every load fails: each
    fallback or retry re-attempts the load; the terminal error ends the
    automatic handling of the entry.  [fuel] bounds the number of loads. *)
Fixpoint failingLoads (cfg : RetryConfig) (st : RetryState) (fuel : nat) : list RetryDecision :=
  match fuel with
  | O => []
  | S f =>
      let '(d, st') := onLoadFailure cfg st in
      match d with
      | TerminalError _ _ => [d]
      | _ => d :: failingLoads cfg st' f
      end
  end.

(* ------------------------------------------------------------------ *)
(** ** Volume ducking (advanced/volume-ducking.md) *)

Inductive EasingType := Linear | EaseIn | EaseOut | EaseInOut.

Record VolumeConfig := mkVolumeConfig {
  duckTransitionDuration : option nat;
  duckingVolume : Q;
  priorityChannel : nat;
  priorityVolume : Q;
  restoreTransitionDuration : option nat;
  transitionEasing : option EasingType
}.

(* ------------------------------------------------------------------ *)
(** ** Event listeners (api-reference/event-listeners.md) *)

Inductive EventKind :=
| AudioStart | AudioComplete | AudioPause | AudioResume
| AudioProgress | QueueChange | AudioError.

#[global] Instance EventKind_eq_dec : EqDecision EventKind.
Proof. solve_decision. Defined.

(** Callbacks are compared by identity, as JavaScript functions are. *)
Definition CallbackId := nat.

(** The listener registry: (channel, kind, callback) in registration
    order, which is also the order of invocation. *)
Definition Registry := list (nat * EventKind * CallbackId).

(** [on<Kind>(channelNumber, callback): void], the signature of the API
    reference (api-reference/event-listeners.md, docusaurus.config.ts):
    registers the callback and returns nothing. The guide
    core-concepts/event-system.md instead keeps the return value as a
    [() => void] cleanup function; [on_returns_no_disposer] shows the
    signature above admits no such function. *)
Definition onEvent (c : nat) (k : EventKind) (cb : CallbackId) (reg : Registry) : Registry * unit :=
  (reg ++ [(c, k, cb)], tt).

(** [off<Kind>(channelNumber, callback?): void]: with a callback removes
    that callback, without one removes every callback of the kind. *)
Definition offEvent (c : nat) (k : EventKind) (ocb : option CallbackId) (reg : Registry) : Registry :=
  List.filter (fun '(c', k', cb') =>
    negb (bool_decide (c' = c /\ k' = k) &&
          match ocb with Some cb => bool_decide (cb' = cb) | None => true end))
    reg.

(** Callbacks invoked, in order, when [kind] fires on channel [c]. *)
Definition subscribers (reg : Registry) (c : nat) (k : EventKind) : list CallbackId :=
  map (fun '(_, _, cb) => cb)
    (List.filter (fun '(c', k', _) => bool_decide (c' = c /\ k' = k)) reg).

(* ------------------------------------------------------------------ *)
(** ** The engine: all channels and the process-wide configuration *)

Record Engine := mkEngine {
  channels : gmap nat Channel;
  ducking : option VolumeConfig;
  retryConfig : RetryConfig;
  queueConfig : QueueConfig;
  listeners : Registry
}.

Definition initialEngine : Engine :=
  mkEngine ∅ None defaultRetryConfig defaultQueueConfig [].

Definition setDuck (ch : Channel) (d : option Q) : Channel :=
  mkChannel (queue ch) (status ch) (volume ch) d (maxQueueSize ch).

(** A channel with playback in flight. *)
Definition channelActive (chs : gmap nat Channel) (c : nat) : bool :=
  match chs !! c with
  | Some ch => bool_decide (status ch <> Idle)
  | None => false
  end.

(** Modelled from the spec: while the priority channel is active every
    other channel is ducked to [duckingVolume] and the priority channel
    plays at [priorityVolume]; otherwise every channel is back on its
    baseline.  Only the level a duck or restore transition ends on is
    kept ([duckState], [None] for the channel's own volume); the timed
    fade towards it ([duckTransitionDuration], [restoreTransitionDuration],
    250 ms by default) is not modelled, so [effectiveVolume] is the
    level once the transition has finished. *)
Definition applyDucking (vc : VolumeConfig) (chs : gmap nat Channel) : gmap nat Channel :=
  let active := channelActive chs (priorityChannel vc) in
  map_imap (fun c ch =>
    Some (setDuck ch
      (if active then
         Some (if bool_decide (c = priorityChannel vc) then priorityVolume vc else duckingVolume vc)
       else None))) chs.

(** [setVolumeDucking(config)]: installs the policy and applies it at once. *)
Definition setVolumeDucking (vc : VolumeConfig) (eng : Engine) : Engine :=
  mkEngine (applyDucking vc (channels eng)) (Some vc) (retryConfig eng) (queueConfig eng) (listeners eng).

(** [clearVolumeDucking()]: removes the policy, every channel on baseline. *)
Definition clearVolumeDucking (eng : Engine) : Engine :=
  mkEngine (fmap (fun ch => setDuck ch None) (channels eng)) None
    (retryConfig eng) (queueConfig eng) (listeners eng).

(** Effective volume = [duckState ?? volume]. *)
Definition effectiveVolume (eng : Engine) (c : nat) : option Q :=
  (fun ch => default (volume ch) (duckState ch)) <$> channels eng !! c.

Definition getRetryConfig (eng : Engine) : RetryConfig := retryConfig eng.

Definition setRetryConfig (rc : RetryConfig) (eng : Engine) : Engine :=
  mkEngine (channels eng) (ducking eng) rc (queueConfig eng) (listeners eng).

Definition setQueueConfig (qc : QueueConfig) (eng : Engine) : Engine :=
  mkEngine (channels eng) (ducking eng) (retryConfig eng) qc (listeners eng).

Inductive EngineOp :=
| ESetRetryConfig (rc : RetryConfig)
| ESetQueueConfig (qc : QueueConfig)
| ESetVolumeDucking (vc : VolumeConfig)
| EClearVolumeDucking
| EChannel (c : nat) (o : Op)
| EOn (c : nat) (k : EventKind) (cb : CallbackId)
| EOff (c : nat) (k : EventKind) (ocb : option CallbackId).

(** Enqueues use the queue configuration in force. *)
Definition withConfig (qc : QueueConfig) (o : Op) : Op :=
  match o with
  | OpQueue _ s opts => OpQueue qc s opts
  | OpQueuePriority _ s opts => OpQueuePriority qc s opts
  | _ => o
  end.

(** One engine step; ducking is re-evaluated after every channel change. *)
Definition engineStep (eng : Engine) (eo : EngineOp) : Engine :=
  match eo with
  | ESetRetryConfig rc => setRetryConfig rc eng
  | ESetQueueConfig qc => setQueueConfig qc eng
  | ESetVolumeDucking vc => setVolumeDucking vc eng
  | EClearVolumeDucking => clearVolumeDucking eng
  | EChannel c o =>
      let ch := default emptyChannel (channels eng !! c) in
      let chs := <[c := fst (step ch (withConfig (queueConfig eng) o))]> (channels eng) in
      let chs' := match ducking eng with Some vc => applyDucking vc chs | None => chs end in
      mkEngine chs' (ducking eng) (retryConfig eng) (queueConfig eng) (listeners eng)
  | EOn c k cb =>
      mkEngine (channels eng) (ducking eng) (retryConfig eng) (queueConfig eng)
        (fst (onEvent c k cb (listeners eng)))
  | EOff c k ocb =>
      mkEngine (channels eng) (ducking eng) (retryConfig eng) (queueConfig eng)
        (offEvent c k ocb (listeners eng))
  end.

Definition runEngine (eng : Engine) (eos : list EngineOp) : Engine :=
  fold_left engineStep eos eng.

Definition isSetRetryConfig (eo : EngineOp) : bool :=
  match eo with ESetRetryConfig _ => true | _ => false end.

(* ------------------------------------------------------------------ *)
(** ** Queue inspection (advanced-queue-manipulation.md, event-listeners.md) *)

(** Modelled from the spec: [getQueueLength(channelNumber)]; a channel
    that was never used has an empty queue. *)
Definition getQueueLength (c : nat) (eng : Engine) : nat :=
  match channels eng !! c with
  | Some ch => length (queue ch)
  | None => 0%nat
  end.

(** Modelled from the spec: [getQueueItemInfo(queueSlotNumber,
    channelNumber): QueueItem | null], the item at a 0-based slot, [null]
    when there is none. *)
Definition getQueueItemInfo (i : Z) (c : nat) (eng : Engine) : option QueueItem :=
  if i <? 0 then None
  else
    match channels eng !! c with
    | Some ch => toItem <$> queue ch !! Z.to_nat i
    | None => None
    end.

(** [QueueSnapshot] (event-listeners.md, onQueueChange). *)
Record QueueSnapshot := mkSnapshot {
  items : list QueueItem;
  totalItems : nat;
  currentlyPlaying : option string
}.

Definition queueSnapshotOf (ch : Channel) : QueueSnapshot :=
  mkSnapshot (snapshot ch) (length (queue ch))
    (match queue ch with
     | e :: _ => if isPlaying e then Some (src e) else None
     | [] => None
     end).

(** Modelled from the spec: the snapshot of a channel, as passed to
    [onQueueChange] callbacks. *)
Definition getQueueSnapshot (c : nat) (eng : Engine) : QueueSnapshot :=
  queueSnapshotOf (default emptyChannel (channels eng !! c)).

(* ------------------------------------------------------------------ *)
(** ** Engine-wide stop and teardown (event-listeners.md) *)

(** Ducking is re-evaluated after every change of the channel map, as in
    [engineStep]. *)
Definition reduck (d : option VolumeConfig) (chs : gmap nat Channel) : gmap nat Channel :=
  match d with Some vc => applyDucking vc chs | None => chs end.

(** Modelled from the spec: [stopAllAudio()] stops and clears every
    channel. *)
Definition stopAllAudio (eng : Engine) : Engine :=
  mkEngine (reduck (ducking eng) (stopAllAudioInChannel <$> channels eng))
    (ducking eng) (retryConfig eng) (queueConfig eng) (listeners eng).

(** Modelled from the spec: [destroyChannel(channelNumber)] clears the
    channel's queue and removes all of its event listeners; the channel
    is forgotten and created afresh on its next use. *)
Definition destroyChannel (c : nat) (eng : Engine) : Engine :=
  mkEngine (reduck (ducking eng) (delete c (channels eng)))
    (ducking eng) (retryConfig eng) (queueConfig eng)
    (List.filter (fun '(c', _, _) => negb (bool_decide (c' = c))) (listeners eng)).

(** Modelled from the spec: [destroyAllChannels()] clears all queues and
    removes all event listeners. *)
Definition destroyAllChannels (eng : Engine) : Engine :=
  mkEngine ∅ (ducking eng) (retryConfig eng) (queueConfig eng) [].

(** Every public call on the engine. *)
Inductive Command :=
| CEngine (eo : EngineOp)
| CStopAll
| CDestroy (c : nat)
| CDestroyAll.

Definition command (eng : Engine) (cmd : Command) : Engine :=
  match cmd with
  | CEngine eo => engineStep eng eo
  | CStopAll => stopAllAudio eng
  | CDestroy c => destroyChannel c eng
  | CDestroyAll => destroyAllChannels eng
  end.

Definition runCommands (eng : Engine) (cmds : list Command) : Engine :=
  fold_left command cmds eng.

(** Ducking level a channel must be on under a policy. *)
Definition expectedDuck (d : option VolumeConfig) (chs : gmap nat Channel) (c : nat) : option Q :=
  match d with
  | Some vc =>
      if channelActive chs (priorityChannel vc) then
        Some (if bool_decide (c = priorityChannel vc) then priorityVolume vc else duckingVolume vc)
      else None
  | None => None
  end.

(* ================================================================== *)
(** * Properties *)

(** ** Sanity checks on small inputs *)

Definition entryOf (s : string) : QueueEntry := mkEntry s defaultOptions false.

Example queue_three_plain :
  map src (queue (fst (run emptyChannel
    [OpQueue defaultQueueConfig "a" defaultOptions;
     OpQueue defaultQueueConfig "b" defaultOptions;
     OpQueue defaultQueueConfig "c" defaultOptions]))) = ["a"; "b"; "c"].
Proof. reflexivity. Qed.

Example remove_slot_two :
  map src (queue (fst (removeQueuedItem 2
    (mkChannel [entryOf "a"; entryOf "b"; entryOf "c"] Playing 1 None None))))
  = ["a"; "b"].
Proof. reflexivity. Qed.

Example reorder_three_to_one :
  map src (queue (fst (reorderQueue 3 1
    (mkChannel (map entryOf ["i"; "s1"; "s2"; "s3"; "o"]) Playing 1 None None))))
  = ["i"; "s3"; "s1"; "s2"; "o"].
Proof. reflexivity. Qed.

Example swap_one_three :
  map src (queue (fst (swapQueueItems 1 3
    (mkChannel (map entryOf ["p"; "f"; "s"; "t"]) Playing 1 None None))))
  = ["p"; "t"; "s"; "f"].
Proof. reflexivity. Qed.

(** ** Splice helpers *)

Lemma remove_at_cons {A} (i : nat) (x : A) (l : list A) :
  remove_at (S i) (x :: l) = x :: remove_at i l.
Proof. reflexivity. Qed.

Lemma insert_at_cons {A} (i : nat) (x y : A) (l : list A) :
  insert_at (S i) y (x :: l) = x :: insert_at i y l.
Proof. reflexivity. Qed.

Lemma Forall_remove_at {A} (P : A -> Prop) (i : nat) (l : list A) :
  Forall P l -> Forall P (remove_at i l).
Proof.
  intros H. unfold remove_at. apply Forall_app. split.
  - by apply Forall_take.
  - by apply Forall_drop.
Qed.

Lemma Forall_insert_at {A} (P : A -> Prop) (i : nat) (x : A) (l : list A) :
  Forall P l -> P x -> Forall P (insert_at i x l).
Proof.
  intros H Hx. unfold insert_at. apply Forall_app. split.
  - by apply Forall_take.
  - constructor; [done | by apply Forall_drop].
Qed.

Lemma validSlot_spec (q : list QueueEntry) (i : Z) :
  validSlot q i = true <-> 1 <= i /\ i < Z.of_nat (length q).
Proof. unfold validSlot. rewrite andb_true_iff, Z.leb_le, Z.ltb_lt. tauto. Qed.

Lemma validSlot_succ (q : list QueueEntry) (i : Z) :
  validSlot q i = true ->
  exists e t k, q = e :: t /\ Z.to_nat i = S k /\ (k < length t)%nat.
Proof.
  intros H. apply validSlot_spec in H as [H1 H2].
  destruct q as [|e t]; simpl in H2; [lia|].
  exists e, t, (Z.to_nat i - 1)%nat. repeat split; lia.
Qed.

(** ** The channel invariant *)

Definition notPlaying (e : QueueEntry) : Prop := isPlaying e = false.

(** [Idle] exactly when the queue is empty; otherwise the index-0 entry
    is the in-flight one and no other entry is. *)
Definition chanInv (ch : Channel) : Prop :=
  (status ch = Idle <-> queue ch = []) /\
  match queue ch with
  | [] => True
  | e :: t => isPlaying e = true /\ Forall notPlaying t
  end.

Lemma chanInv_emptyChannel : chanInv emptyChannel.
Proof. split; simpl; tauto. Qed.

Lemma chanInv_cons (ch : Channel) (e : QueueEntry) (t : list QueueEntry) :
  chanInv ch -> queue ch = e :: t ->
  status ch <> Idle /\ isPlaying e = true /\ Forall notPlaying t.
Proof.
  intros [Hs Hq] Heq. rewrite Heq in Hq. destruct Hq as [Hp Ht].
  repeat split; auto. intros Hi. apply Hs in Hi. congruence.
Qed.

(** Replacing the pending part of a non-empty queue. *)
Lemma chanInv_setQueue_pending (ch : Channel) (e : QueueEntry) (t t' : list QueueEntry) :
  chanInv ch -> queue ch = e :: t -> Forall notPlaying t' ->
  chanInv (setQueue ch (e :: t')).
Proof.
  intros Hinv Heq Ht'. destruct (chanInv_cons ch e t Hinv Heq) as (Hs & Hp & _).
  unfold chanInv, setQueue; simpl. split; [split; [done | discriminate] | auto].
Qed.

Lemma startHead_active (ch : Channel) : status ch <> Idle -> startHead ch = ch.
Proof. unfold startHead. destruct (status ch); congruence. Qed.

(** Starting a channel whose queue holds only pending entries. *)
Lemma chanInv_startHead_idle (ch : Channel) :
  status ch = Idle -> Forall notPlaying (queue ch) -> chanInv (startHead ch).
Proof.
  intros Hs Hq. unfold startHead. rewrite Hs.
  destruct (queue ch) as [|e t] eqn:Eq.
  - unfold chanInv. rewrite Hs, Eq. tauto.
  - inversion Hq; subst. unfold chanInv; simpl.
    split; [split; discriminate | auto].
Qed.

Lemma chanInv_advance (ch : Channel) : chanInv ch -> chanInv (advance ch).
Proof.
  intros Hinv. unfold advance.
  destruct (queue ch) as [|e t] eqn:Eq.
  - unfold chanInv, setStatus; simpl. rewrite Eq. tauto.
  - destruct (chanInv_cons ch e t Hinv Eq) as (_ & _ & Ht).
    by apply chanInv_startHead_idle.
Qed.

Lemma chanInv_setStatus (ch : Channel) (s : Status) :
  chanInv ch -> status ch <> Idle -> s <> Idle -> chanInv (setStatus ch s).
Proof.
  intros [Hs Hq] Hne Hs'. unfold chanInv, setStatus; simpl. split; [|done].
  split; [done|]. intros Hnil. exfalso. apply Hne, Hs, Hnil.
Qed.

Lemma chanInv_removeQueuedItem (i : Z) (ch : Channel) :
  chanInv ch -> chanInv (fst (removeQueuedItem i ch)).
Proof.
  intros Hinv. unfold removeQueuedItem.
  destruct (validSlot (queue ch) i) eqn:V; simpl; [|done].
  destruct (validSlot_succ _ _ V) as (e & t & k & Eq & Hk & _).
  rewrite Eq, Hk, remove_at_cons.
  destruct (chanInv_cons ch e t Hinv Eq) as (_ & _ & Ht).
  eapply chanInv_setQueue_pending; eauto using Forall_remove_at.
Qed.

Lemma chanInv_reorderQueue (i j : Z) (ch : Channel) :
  chanInv ch -> chanInv (fst (reorderQueue i j ch)).
Proof.
  intros Hinv. unfold reorderQueue.
  destruct (validSlot (queue ch) i) eqn:Vi; simpl; [|done].
  destruct (validSlot (queue ch) j) eqn:Vj; simpl; [|done].
  destruct (queue ch !! Z.to_nat i) as [x|] eqn:Lx; simpl; [|done].
  destruct (validSlot_succ _ _ Vi) as (e & t & k & Eq & Hk & _).
  destruct (validSlot_succ _ _ Vj) as (e' & t' & k' & Eq' & Hk' & _).
  rewrite Eq in Eq'. injection Eq' as <- <-.
  rewrite Eq, Hk in Lx. simpl in Lx.
  destruct (chanInv_cons ch e t Hinv Eq) as (_ & _ & Ht).
  rewrite Eq, Hk, Hk', remove_at_cons, insert_at_cons.
  eapply chanInv_setQueue_pending; [done | exact Eq |].
  apply Forall_insert_at; [by apply Forall_remove_at|].
  exact (Forall_lookup_1 _ _ _ _ Ht Lx).
Qed.

Lemma chanInv_swapQueueItems (a b : Z) (ch : Channel) :
  chanInv ch -> chanInv (fst (swapQueueItems a b ch)).
Proof.
  intros Hinv. unfold swapQueueItems.
  destruct (validSlot (queue ch) a) eqn:Va; simpl; [|done].
  destruct (validSlot (queue ch) b) eqn:Vb; simpl; [|done].
  destruct (validSlot_succ _ _ Va) as (e & t & k & Eq & Hk & _).
  destruct (validSlot_succ _ _ Vb) as (e' & t' & k' & Eq' & Hk' & _).
  rewrite Eq in Eq'. injection Eq' as <- <-.
  destruct (chanInv_cons ch e t Hinv Eq) as (_ & _ & Ht).
  rewrite Eq, Hk, Hk'. simpl.
  destruct (t !! k) as [ea|] eqn:La; simpl; [|done].
  destruct (t !! k') as [eb|] eqn:Lb; simpl; [|done].
  eapply chanInv_setQueue_pending; [done | exact Eq |].
  apply Forall_insert; [apply Forall_insert; [done|]|].
  - exact (Forall_lookup_1 _ _ _ _ Ht La).
  - exact (Forall_lookup_1 _ _ _ _ Ht Lb).
Qed.

Lemma chanInv_clearQueueAfterCurrent (ch : Channel) :
  chanInv ch -> chanInv (fst (clearQueueAfterCurrent ch)).
Proof.
  intros Hinv. unfold clearQueueAfterCurrent; simpl.
  destruct (queue ch) as [|e t] eqn:Eq.
  - unfold chanInv, setQueue; simpl. destruct Hinv as [Hs _]. rewrite Eq in Hs. tauto.
  - destruct (chanInv_cons ch e t Hinv Eq) as (_ & Hp & _). rewrite Hp.
    eapply chanInv_setQueue_pending; eauto.
Qed.

Lemma placeEntry_cons (opts : AudioQueueOptions) (e h : QueueEntry) (t : list QueueEntry) :
  placeEntry opts e (h :: t) =
  h :: (if addToFront opts || priority opts then e :: t else t ++ [e]).
Proof. unfold placeEntry. by destruct (addToFront opts || priority opts). Qed.

Lemma Forall_placeEntry (opts : AudioQueueOptions) (e : QueueEntry) (q : list QueueEntry) :
  Forall notPlaying q -> notPlaying e -> Forall notPlaying (placeEntry opts e q).
Proof.
  intros Hq He. unfold placeEntry. destruct (addToFront opts || priority opts).
  - by apply Forall_insert_at.
  - apply Forall_app. auto.
Qed.

(** The entry accepted by an enqueue goes behind the in-flight item. *)
Lemma chanInv_accept (ch : Channel) (opts : AudioQueueOptions) (e : QueueEntry) (q : list QueueEntry) :
  chanInv ch -> notPlaying e ->
  (q = queue ch \/ exists h x r, queue ch = h :: x :: r /\ q = h :: r) ->
  chanInv (startHead (setQueue ch (placeEntry opts e q))).
Proof.
  intros Hinv He Hq.
  destruct (decide (status ch = Idle)) as [Hi|Hi].
  - assert (Hnil : queue ch = []) by (apply (proj1 Hinv), Hi).
    destruct Hq as [-> | (h & x & r & Hc & _)]; [|congruence].
    apply chanInv_startHead_idle; [done|]. simpl. rewrite Hnil.
    apply Forall_placeEntry; auto.
  - rewrite startHead_active by done.
    assert (Hh : exists h t, q = h :: t /\ queue ch = h :: t /\ Forall notPlaying t
                 \/ q = h :: t /\ exists x, queue ch = h :: x :: t /\ Forall notPlaying t).
    { destruct Hq as [-> | (h & x & r & Hc & ->)].
      - destruct (queue ch) as [|h t] eqn:Eq; [by apply (proj1 Hinv) in Eq|].
        destruct (chanInv_cons ch h t Hinv Eq) as (_ & _ & Ht). eauto 10.
      - destruct (chanInv_cons ch h (x :: r) Hinv Hc) as (_ & _ & Ht).
        inversion Ht; subst. eauto 10. }
    destruct Hh as (h & t & [(-> & Eq & Ht) | (-> & x & Eq & Ht)]);
      rewrite placeEntry_cons; eapply chanInv_setQueue_pending; try exact Eq;
      try done; destruct (addToFront opts || priority opts);
      solve [constructor; done | apply Forall_app; auto].
Qed.

Lemma chanInv_queueAudio (cfg : QueueConfig) (s : string) (opts : AudioQueueOptions) (ch : Channel) :
  chanInv ch -> chanInv (fst (queueAudio cfg s opts ch)).
Proof.
  intros Hinv. unfold queueAudio.
  destruct (limitOf cfg ch opts) as [m|].
  - destruct (m <=? length (queue ch))%nat.
    + destruct (dropOldestWhenFull cfg); [|done].
      destruct (queue ch) as [|h [|x r]] eqn:Eq; simpl; try done.
      apply chanInv_accept; [done | reflexivity |].
      right. exists h, x, r. split; [exact Eq | reflexivity].
    + apply chanInv_accept; [done | reflexivity | by left].
  - apply chanInv_accept; [done | reflexivity | by left].
Qed.

Lemma chanInv_step (ch : Channel) (o : Op) :
  chanInv ch -> chanInv (fst (step ch o)).
Proof.
  intros Hinv. destruct o; simpl.
  - by apply chanInv_queueAudio.
  - by apply chanInv_queueAudio.
  - by apply chanInv_removeQueuedItem.
  - by apply chanInv_reorderQueue.
  - by apply chanInv_swapQueueItems.
  - by apply chanInv_clearQueueAfterCurrent.
  - unfold chanInv, stopAllAudioInChannel; simpl. tauto.
  - unfold stopCurrentAudioInChannel. case_decide; [done|]. by apply chanInv_advance.
  - destruct (status ch) eqn:Hs, (queue ch); simpl; try done.
    unfold audioStarted. rewrite Hs. simpl.
    apply chanInv_setStatus; congruence.
  - unfold pauseChannel. case_decide; [|done]. apply chanInv_setStatus; congruence.
  - unfold resumeChannel. case_decide; [|done]. apply chanInv_setStatus; congruence.
  - unfold audioEnded. destruct (status ch), (queue ch) as [|e t]; try done.
    destruct (loop (options e)); [done|]. by apply chanInv_advance.
  - unfold chanInv, setChannelQueueLimit; simpl. exact Hinv.
Qed.

Lemma run_cons (ch : Channel) (o : Op) (rest : list Op) :
  run ch (o :: rest) =
  (fst (run (fst (step ch o)) rest), snd (step ch o) ++ snd (run (fst (step ch o)) rest)).
Proof. simpl. destruct (step ch o) as [ch1 out1]. simpl. by destruct (run ch1 rest). Qed.

Lemma chanInv_run (ops : list Op) (ch : Channel) :
  chanInv ch -> chanInv (fst (run ch ops)).
Proof.
  revert ch. induction ops as [|o rest IH]; intros ch Hinv; [done|].
  rewrite run_cons. simpl. apply IH, chanInv_step, Hinv.
Qed.

(** The property of claim C1, on one channel. *)
Definition playingInvariant (ch : Channel) : Prop :=
  (length (List.filter isPlaying (queue ch)) <= 1)%nat /\
  (forall (i : nat) (e : QueueEntry), queue ch !! i = Some e -> isPlaying e = true -> i = 0%nat) /\
  (isCurrentlyPlaying <$> head (snapshot ch) = Some true <-> queue ch <> [] /\ status ch <> Idle).

Lemma filter_notPlaying (t : list QueueEntry) :
  Forall notPlaying t -> List.filter isPlaying t = [].
Proof. induction 1 as [|x t Hx _ IH]; [done|]. simpl. by rewrite Hx. Qed.

Lemma chanInv_playingInvariant (ch : Channel) : chanInv ch -> playingInvariant ch.
Proof.
  intros [Hs Hq]. unfold playingInvariant, snapshot.
  destruct (queue ch) as [|e t] eqn:Eq.
  - simpl. split; [lia|]. split.
    + intros i x Hx. rewrite lookup_nil in Hx. discriminate Hx.
    + split; [discriminate | intros [? _]; done].
  - destruct Hq as [Hp Ht].
    assert (Hf : List.filter isPlaying t = []) by (apply filter_notPlaying, Ht).
    split; [simpl; rewrite Hp, Hf; simpl; lia|]. split.
    + intros [|i] x Hx Hpx; [done|]. simpl in Hx.
      pose proof (Forall_lookup_1 _ _ _ _ Ht Hx) as Hn. unfold notPlaying in Hn. congruence.
    + simpl. unfold toItem; simpl. rewrite Hp. split; [|done].
      intros _. split; [discriminate|]. intros Hi. apply Hs in Hi. discriminate.
Qed.


(** Claim C1: starting from a fresh channel, after any sequence of
    enqueues, priority enqueues, removals, reorders, swaps, clears, stops,
    advances on natural end, start signals, pauses and resumes, at most one
    entry has [isPlaying = true], that entry is at index 0, and the
    snapshot's [queue[0].isCurrentlyPlaying] is true iff the queue is
    non-empty and the channel is not [Idle].  Each single operation
    preserves the underlying invariant [chanInv] ([chanInv_step]). *)
Theorem playing_entry_unique_at_head (ops : list Op) :
  playingInvariant (fst (run emptyChannel ops)).
Proof. apply chanInv_playingInvariant, chanInv_run, chanInv_emptyChannel. Qed.

(** ** C2: invalid indices fail with a result object, queue unchanged *)

Lemma validSlot_false (q : list QueueEntry) (i : Z) :
  validSlot q i = false <-> i <= 0 \/ Z.of_nat (length q) <= i.
Proof.
  unfold validSlot. rewrite andb_false_iff, Z.leb_gt, Z.ltb_ge. lia.
Qed.

Definition invalidIndex (ch : Channel) (i : Z) : Prop :=
  i <= 0 \/ Z.of_nat (length (queue ch)) <= i.

(** The channel comes back unchanged with [success = false] and an
    [InvalidIndexError] naming an invalid index. *)
Definition failsUnchanged (ch : Channel) (r : Channel * QueueManipulationResult) : Prop :=
  exists k, invalidIndex ch k /\ r = (ch, failWith (InvalidIndexError k)) /\
            success (snd r) = false.

Lemma reorder_swap_invalid_first (ch : Channel) (i j : Z) :
  validSlot (queue ch) i = false ->
  reorderQueue i j ch = (ch, failWith (InvalidIndexError i)) /\
  swapQueueItems i j ch = (ch, failWith (InvalidIndexError i)).
Proof. intros V. unfold reorderQueue, swapQueueItems. by rewrite V. Qed.

Lemma reorder_swap_invalid_second (ch : Channel) (i j : Z) :
  validSlot (queue ch) j = false ->
  failsUnchanged ch (reorderQueue i j ch) /\ failsUnchanged ch (swapQueueItems i j ch).
Proof.
  intros V. unfold reorderQueue, swapQueueItems. rewrite V.
  destruct (validSlot (queue ch) i) eqn:Vi; simpl.
  - split; exists j; repeat split; try done; by apply validSlot_false.
  - split; exists i; repeat split; try done; by apply validSlot_false.
Qed.

(** Claim C2: for an index that is 0, negative or beyond the queue,
    [removeQueuedItem], [reorderQueue] and [swapQueueItems] (with the bad
    index in either position) return a result with [success = false] and
    an [InvalidIndexError] for an invalid index, and leave the channel
    unchanged; they are total functions, nothing is thrown. *)
Theorem invalid_index_fails_unchanged (ch : Channel) (i : Z)
    (Hi : i <= 0 \/ Z.of_nat (length (queue ch)) <= i) :
  failsUnchanged ch (removeQueuedItem i ch) /\
  forall j : Z,
    failsUnchanged ch (reorderQueue i j ch) /\ failsUnchanged ch (reorderQueue j i ch) /\
    failsUnchanged ch (swapQueueItems i j ch) /\ failsUnchanged ch (swapQueueItems j i ch).
Proof.
  assert (V : validSlot (queue ch) i = false) by (by apply validSlot_false).
  split.
  - exists i. unfold removeQueuedItem. rewrite V. done.
  - intros j. destruct (reorder_swap_invalid_first ch i j V) as [R S].
    destruct (reorder_swap_invalid_second ch j i V) as [R' S'].
    rewrite R, S. repeat split; try done; exists i; done.
Qed.

Lemma invalid_index_fails_unchanged_witness :
  let ch := mkChannel (map entryOf ["a"; "b"; "c"]) Playing 1 None None in
  (0 <= 0 \/ Z.of_nat (length (queue ch)) <= 0) /\
  failsUnchanged ch (removeQueuedItem 0 ch).
Proof.
  intros ch. split; [left; lia|].
  apply (invalid_index_fails_unchanged ch 0). left; lia.
Defined.

(** ** C3: priority enqueue goes right after the in-flight item *)

Lemma limitOf_withFront (cfg : QueueConfig) (ch : Channel) (opts : AudioQueueOptions) :
  limitOf cfg ch (withFront opts) = limitOf cfg ch opts.
Proof. reflexivity. Qed.

(** A channel playing [p] with [q1], [q2] queued, under a global default
    limit of three items. *)
Definition limit3Config : QueueConfig := mkQueueConfig (Some 3%nat) false true.

Definition playingP : QueueEntry := mkEntry "p" defaultOptions true.

Definition channelPQQ : Channel :=
  mkChannel [playingP; entryOf "q1"; entryOf "q2"] Playing 1 None None.

(** Claim C3 fails on a channel whose size limit is reached: the priority
    enqueue of "x" on [p, q1, q2] with a limit of 3 is rejected with
    [QueueFullError] and the queue stays [p, q1, q2], not [p, x, q1, q2]. *)
Lemma priority_enqueue_full_counterexample :
  queueAudioPriority limit3Config "x" defaultOptions channelPQQ
    = (channelPQQ, Some (QueueFullError 3)) /\
  queue (fst (queueAudioPriority limit3Config "x" defaultOptions channelPQQ))
    <> [playingP; mkEntry "x" (withFront defaultOptions) false; entryOf "q1"; entryOf "q2"].
Proof. split; [reflexivity | vm_compute; discriminate]. Qed.

(** Claim C3 (amended): on a channel whose in-flight item [P] is at index
    0 followed by the queued items [rest] (e.g. [Q1; Q2]), a priority
    enqueue of [X]
    - below the size limit succeeds and yields exactly [P :: X :: rest]:
      [X] at index 1, [P] the same entry at index 0, the playback state
      unchanged;
    - at the size limit without [dropOldestWhenFull] is rejected with
      [QueueFullError] and leaves the channel unchanged;
    - at the size limit with [dropOldestWhenFull] evicts the oldest queued
      item [Q1] first and yields [P :: X :: rest'] for [rest = Q1 :: rest'];
      with nothing queued behind [P] it is rejected. *)
Theorem queueAudioPriority_after_current (cfg : QueueConfig) (opts : AudioQueueOptions)
    (ch : Channel) (P : QueueEntry) (rest : list QueueEntry) (X : string)
    (Hq : queue ch = P :: rest) (Hs : status ch <> Idle) :
  (notFull cfg ch opts ->
   queueAudioPriority cfg X opts ch =
     (setQueue ch (P :: mkEntry X (withFront opts) false :: rest), None)) /\
  (forall m, limitOf cfg ch opts = Some m -> (m <= length (queue ch))%nat ->
   dropOldestWhenFull cfg = false ->
   queueAudioPriority cfg X opts ch = (ch, Some (QueueFullError m))) /\
  (forall m Q1 rest', limitOf cfg ch opts = Some m -> (m <= length (queue ch))%nat ->
   dropOldestWhenFull cfg = true -> rest = Q1 :: rest' ->
   queueAudioPriority cfg X opts ch =
     (setQueue ch (P :: mkEntry X (withFront opts) false :: rest'), None)) /\
  (forall m, limitOf cfg ch opts = Some m -> (m <= length (queue ch))%nat ->
   rest = [] ->
   queueAudioPriority cfg X opts ch = (ch, Some (QueueFullError m))).
Proof.
  unfold queueAudioPriority, queueAudio. rewrite limitOf_withFront.
  split; [|split; [|split]].
  - intros Hroom. unfold notFull in Hroom.
    assert (Hacc : startHead (setQueue ch (placeEntry (withFront opts)
                     (mkEntry X (withFront opts) false) (queue ch)))
                   = setQueue ch (P :: mkEntry X (withFront opts) false :: rest)).
    { rewrite startHead_active by exact Hs. rewrite Hq. reflexivity. }
    destruct (limitOf cfg ch opts) as [m|].
    + destruct (Nat.leb_spec m (length (queue ch))) as [Hle|Hlt]; [lia|].
      by rewrite Hacc.
    + by rewrite Hacc.
  - intros m Hm Hle Hd. rewrite Hm, Hd.
    destruct (Nat.leb_spec m (length (queue ch))); [done|lia].
  - intros m Q1 rest' Hm Hle Hd Hr. rewrite Hm, Hd.
    destruct (Nat.leb_spec m (length (queue ch))); [|lia].
    rewrite Hq, Hr. simpl.
    rewrite startHead_active by exact Hs. reflexivity.
  - intros m Hm Hle Hr. rewrite Hm.
    destruct (Nat.leb_spec m (length (queue ch))); [|lia].
    destruct (dropOldestWhenFull cfg); [|done]. rewrite Hq, Hr. done.
Qed.

Definition limit3DropConfig : QueueConfig := mkQueueConfig (Some 3%nat) true true.

Lemma queueAudioPriority_after_current_witness :
  queue channelPQQ = playingP :: [entryOf "q1"; entryOf "q2"] /\
  status channelPQQ <> Idle /\
  queueAudioPriority defaultQueueConfig "x" defaultOptions channelPQQ =
    (setQueue channelPQQ
       (playingP :: mkEntry "x" (withFront defaultOptions) false :: [entryOf "q1"; entryOf "q2"]),
     None) /\
  queueAudioPriority limit3Config "x" defaultOptions channelPQQ =
    (channelPQQ, Some (QueueFullError 3)) /\
  queueAudioPriority limit3DropConfig "x" defaultOptions channelPQQ =
    (setQueue channelPQQ
       (playingP :: mkEntry "x" (withFront defaultOptions) false :: [entryOf "q2"]),
     None).
Proof.
  assert (Hq : queue channelPQQ = playingP :: [entryOf "q1"; entryOf "q2"]) by reflexivity.
  assert (Hs : status channelPQQ <> Idle) by discriminate.
  split; [exact Hq|]. split; [exact Hs|]. split; [|split].
  - apply (proj1 (queueAudioPriority_after_current defaultQueueConfig defaultOptions
             channelPQQ playingP _ "x" Hq Hs)). simpl; exact I.
  - apply (proj1 (proj2 (queueAudioPriority_after_current limit3Config defaultOptions
             channelPQQ playingP _ "x" Hq Hs))); [reflexivity | simpl; lia | reflexivity].
  - apply ((proj1 (proj2 (proj2 (queueAudioPriority_after_current limit3DropConfig
             defaultOptions channelPQQ playingP _ "x" Hq Hs)))) 3%nat (entryOf "q1"));
      [reflexivity | simpl; lia | reflexivity | reflexivity].
Defined.

(** ** C6: clearing after the current item *)

(** Claim C6: [clearQueueAfterCurrent] succeeds; when the index-0 entry
    is playing the queue becomes exactly that entry (same source, options
    and playback flag), otherwise the queue becomes empty; the channel's
    playback state is untouched. *)
Theorem clearQueueAfterCurrent_keeps_current (ch : Channel) :
  success (snd (clearQueueAfterCurrent ch)) = true /\
  status (fst (clearQueueAfterCurrent ch)) = status ch /\
  (forall (e : QueueEntry) (t : list QueueEntry),
     queue ch = e :: t -> isPlaying e = true ->
     queue (fst (clearQueueAfterCurrent ch)) = [e]) /\
  (headPlaying (queue ch) = false -> queue (fst (clearQueueAfterCurrent ch)) = []).
Proof.
  unfold clearQueueAfterCurrent, headPlaying; simpl.
  split; [done|]. split; [done|]. split.
  - intros e t -> Hp. simpl. by rewrite Hp.
  - destruct (queue ch) as [|e t]; [done|]. intros Hp. by rewrite Hp.
Qed.

Lemma clearQueueAfterCurrent_keeps_current_witness :
  queue (fst (clearQueueAfterCurrent channelPQQ)) = [playingP].
Proof.
  apply (proj1 (proj2 (proj2 (clearQueueAfterCurrent_keeps_current channelPQQ)))
           playingP [entryOf "q1"; entryOf "q2"]); reflexivity.
Defined.

(** ** C10: full queues reject unless [dropOldestWhenFull] *)

Lemma map_src_startHead (ch : Channel) :
  map src (queue (startHead ch)) = map src (queue ch).
Proof. destruct ch as [q st v d m]. unfold startHead; simpl. by destruct st, q. Qed.

Lemma map_src_placeEntry (opts : AudioQueueOptions) (s : string) (q : list QueueEntry) :
  exists k, map src (placeEntry opts (mkEntry s opts false) q) = insert_at k s (map src q).
Proof.
  unfold placeEntry, insert_at. destruct (addToFront opts || priority opts).
  - exists 1%nat. by destruct q.
  - exists (length q). rewrite map_app. simpl.
    rewrite take_ge, drop_ge by (rewrite length_map; lia). done.
Qed.

(** Claim C10: when [dropOldestWhenFull] is off (as in the default
    [QueueConfig], which also has no default limit), an enqueue (plain or
    priority) whose applicable size limit is reached is rejected with
    [QueueFullError] and leaves the channel unchanged; and every enqueue
    either is rejected with the channel unchanged or only inserts the new
    source: no queued item is evicted. *)
Theorem full_queue_rejects_without_drop (cfg : QueueConfig) (Hdrop : dropOldestWhenFull cfg = false) :
  (forall (ch : Channel) (s : string) (opts : AudioQueueOptions) (m : nat),
     limitOf cfg ch opts = Some m -> (m <= length (queue ch))%nat ->
     queueAudio cfg s opts ch = (ch, Some (QueueFullError m)) /\
     queueAudioPriority cfg s opts ch = (ch, Some (QueueFullError m))) /\
  (forall (ch : Channel) (s : string) (opts : AudioQueueOptions),
     (exists m, queueAudio cfg s opts ch = (ch, Some (QueueFullError m))) \/
     exists k, map src (queue (fst (queueAudio cfg s opts ch))) = insert_at k s (map src (queue ch))).
Proof.
  split.
  - intros ch s opts m Hl Hle. unfold queueAudioPriority, queueAudio.
    rewrite limitOf_withFront, Hl, Hdrop.
    apply Nat.leb_le in Hle. by rewrite Hle.
  - intros ch s opts. unfold queueAudio.
    assert (Hacc : exists k, map src (queue (fst
        (startHead (setQueue ch (placeEntry opts (mkEntry s opts false) (queue ch))), @None QueueError)))
        = insert_at k s (map src (queue ch))).
    { simpl. rewrite map_src_startHead. apply map_src_placeEntry. }
    destruct (limitOf cfg ch opts) as [m|]; [|by right].
    destruct (m <=? length (queue ch))%nat; [|by right].
    rewrite Hdrop. left. by exists m.
Qed.

Lemma full_queue_rejects_without_drop_witness :
  dropOldestWhenFull defaultQueueConfig = false /\
  queueAudio defaultQueueConfig "x" defaultOptions (setChannelQueueLimit (Some 3%nat) channelPQQ)
    = (setChannelQueueLimit (Some 3%nat) channelPQQ, Some (QueueFullError 3)).
Proof.
  split; [reflexivity|].
  apply (proj1 (full_queue_rejects_without_drop defaultQueueConfig eq_refl)); simpl; [reflexivity | lia].
Defined.

(** ** C4: plain enqueues play in FIFO order *)

Definition limit2Config : QueueConfig := mkQueueConfig (Some 2%nat) false true.

Definition abcThenPlay (cfg : QueueConfig) : list Op :=
  [OpQueue cfg "a" defaultOptions; OpQueue cfg "b" defaultOptions; OpQueue cfg "c" defaultOptions;
   OpStarted; OpEnded; OpStarted; OpEnded; OpStarted; OpEnded].

(** Claim C4 fails when the channel's queue limit is reached: with a
    default limit of 2, "c" is rejected while "a" plays, so only "a" and
    "b" are ever played, not "a", "b", "c". *)
Lemma fifo_limit_counterexample :
  snd (run emptyChannel (abcThenPlay limit2Config)) = ["a"; "b"] /\
  snd (run emptyChannel (abcThenPlay limit2Config)) <> ["a"; "b"; "c"] /\
  snd (run emptyChannel (abcThenPlay defaultQueueConfig)) = ["a"; "b"; "c"].
Proof. split; [reflexivity|]. split; [vm_compute; discriminate | reflexivity]. Qed.

Lemma enqueuedSources_cons (o : Op) (rest : list Op) :
  enqueuedSources (o :: rest) =
  match o with OpQueue _ s _ => [s] | _ => [] end ++ enqueuedSources rest.
Proof. by destruct o. Qed.

Lemma queue_nonempty (ch : Channel) : chanInv ch -> status ch <> Idle -> queue ch <> [].
Proof. intros [Hs _] Hne Hq. apply Hne, Hs, Hq. Qed.

(** One step of a plain-enqueue run: the sources already played followed
    by the pending ones only grow by the newly enqueued source. *)
Lemma fifo_step (ch : Channel) (o : Op) :
  chanInv ch -> fifoStepOk ch o ->
  map src (pendingEntries ch) ++ match o with OpQueue _ s _ => [s] | _ => [] end =
  snd (step ch o) ++ map src (pendingEntries (fst (step ch o))).
Proof.
  intros Hinv Hok. destruct o; simpl in Hok |- *; try contradiction.
  - (* plain enqueue below the limit *)
    destruct Hok as (Hf & Hp & Hroom). unfold notFull in Hroom.
    assert (Hacc : fst (queueAudio cfg s opts ch) =
              startHead (setQueue ch (queue ch ++ [mkEntry s opts false]))).
    { unfold queueAudio, placeEntry. rewrite Hf, Hp. simpl.
      destruct (limitOf cfg ch opts) as [m|]; [|done].
      destruct (Nat.leb_spec m (length (queue ch))); [lia | done]. }
    rewrite Hacc. destruct (decide (status ch = Idle)) as [Hi|Hi].
    + assert (Hq : queue ch = []) by (apply (proj1 Hinv), Hi).
      unfold pendingEntries, startHead, setQueue; simpl. rewrite Hi, Hq. done.
    + rewrite startHead_active by exact Hi.
      pose proof (queue_nonempty ch Hinv Hi) as Hne.
      unfold pendingEntries, setQueue; simpl.
      destruct (status ch); [done | by rewrite map_app | |];
        (destruct (queue ch) as [|h t]; [congruence | simpl; by rewrite map_app]).
  - (* start signal *)
    destruct ch as [q st v d m]. unfold pendingEntries, audioStarted, setStatus; simpl.
    destruct st, q; simpl; by rewrite ?app_nil_r.
  - (* pause *)
    destruct ch as [q st v d m]. unfold pendingEntries, pauseChannel, setStatus; simpl.
    destruct st; simpl; by rewrite ?app_nil_r.
  - (* resume *)
    destruct ch as [q st v d m]. unfold pendingEntries, resumeChannel, setStatus; simpl.
    destruct st; simpl; by rewrite ?app_nil_r.
  - (* natural end *)
    destruct ch as [q st v d m]. unfold pendingEntries, audioEnded, advance; simpl.
    rewrite app_nil_r.
    destruct st, q as [|e t]; simpl; try done.
    destruct (loop (options e)); [done|]. by destruct t.
  - (* queue limit change *)
    by rewrite app_nil_r.
Qed.

Lemma fifo_run (ops : list Op) (ch : Channel) :
  chanInv ch -> fifoRun ch ops ->
  map src (pendingEntries ch) ++ enqueuedSources ops =
  snd (run ch ops) ++ map src (pendingEntries (fst (run ch ops))).
Proof.
  revert ch. induction ops as [|o rest IH]; intros ch Hinv Hok.
  - simpl. by rewrite app_nil_r.
  - destruct Hok as [Ho Hrest]. rewrite enqueuedSources_cons, run_cons. simpl.
    rewrite app_assoc, (fifo_step ch o Hinv Ho), <- app_assoc.
    rewrite (IH _ (chanInv_step ch o Hinv) Hrest), app_assoc. done.
Qed.

Lemma pendingEntries_nil (ch : Channel) : queue ch = [] -> pendingEntries ch = [].
Proof. intros Hq. unfold pendingEntries. by destruct (status ch); rewrite Hq. Qed.

(** Claim C4 (amended): on a fresh channel, when A, B and C are handed to
    plain [queueAudio] in that order while the queue is below its size
    limit (always so with no limit, the default), interleaved only with
    native start and end signals, pauses, resumes and limit changes, the
    items start playing in enqueue order: the started items always form a
    prefix of A, B, C, and are exactly A, B, C once the queue has drained. *)
Theorem plain_enqueue_fifo (ops : list Op) (A B C : string)
    (Hok : fifoRun emptyChannel ops) (Henq : enqueuedSources ops = [A; B; C]) :
  (exists rest, [A; B; C] = snd (run emptyChannel ops) ++ rest) /\
  (queue (fst (run emptyChannel ops)) = [] -> snd (run emptyChannel ops) = [A; B; C]).
Proof.
  pose proof (fifo_run ops emptyChannel chanInv_emptyChannel Hok) as H.
  rewrite Henq in H. simpl in H. split.
  - eexists. exact H.
  - intros Hq. rewrite H, pendingEntries_nil by exact Hq. simpl. by rewrite app_nil_r.
Qed.

Lemma plain_enqueue_fifo_witness :
  fifoRun emptyChannel (abcThenPlay defaultQueueConfig) /\
  enqueuedSources (abcThenPlay defaultQueueConfig) = ["a"; "b"; "c"] /\
  queue (fst (run emptyChannel (abcThenPlay defaultQueueConfig))) = [] /\
  snd (run emptyChannel (abcThenPlay defaultQueueConfig)) = ["a"; "b"; "c"].
Proof.
  assert (Hok : fifoRun emptyChannel (abcThenPlay defaultQueueConfig))
    by (simpl; repeat split; exact I).
  split; [exact Hok|]. split; [reflexivity|]. split; [reflexivity|].
  apply (proj2 (plain_enqueue_fifo _ "a" "b" "c" Hok eq_refl)). reflexivity.
Defined.

(** ** C5: retry bound with exponential backoff *)

Example retry_default_delays :
  map (retryDelay defaultRetryConfig) [0; 1; 2; 3]%nat = [1000; 2000; 4000; 8000]%N.
Proof. reflexivity. Qed.

(** Claim C5: with an enabled retry policy of [maxRetries = 3],
    [exponentialBackoff = true], [baseDelay = 100] and no fallback URLs
    (whatever [skipOnFailure] and [timeoutMs] are), an entry whose every
    load fails gets exactly three retries scheduled after 100, 200 and
    400 ms and then one terminal error event, after which no automatic
    load is attempted; and from three attempts on, every failure is
    terminal. *)
Theorem retry_bound_three (cfg : RetryConfig) (fuel : nat)
    (Hen : enabled cfg = true) (Hmax : maxRetries cfg = 3%nat)
    (Hexp : exponentialBackoff cfg = true) (Hbase : baseDelay cfg = 100%N)
    (Hfb : fallbackUrls cfg = []) (Hfuel : (4 <= fuel)%nat) :
  failingLoads cfg initialRetryState fuel =
    [ScheduleRetry 100; ScheduleRetry 200; ScheduleRetry 400;
     TerminalError 3 (skipOnFailure cfg)] /\
  forall n : nat, (3 <= n)%nat ->
    onLoadFailure cfg (mkRetryState n 0) =
      (TerminalError n (skipOnFailure cfg), mkRetryState n 0).
Proof.
  destruct cfg as [base en exp fb mx skip tmo]; simpl in *; subst.
  split.
  - destruct fuel as [|[|[|[|f]]]]; [lia..|]. reflexivity.
  - intros n Hn. unfold onLoadFailure; simpl.
    destruct (Nat.ltb_spec n 3); [lia | done].
Qed.

Definition retry100 : RetryConfig := mkRetryConfig 100%N true true [] 3 false 10000%N.

Lemma retry_bound_three_witness :
  failingLoads retry100 initialRetryState 10 =
    [ScheduleRetry 100; ScheduleRetry 200; ScheduleRetry 400; TerminalError 3 false].
Proof.
  apply (proj1 (retry_bound_three retry100 10 eq_refl eq_refl eq_refl eq_refl eq_refl
                  ltac:(lia))).
Defined.

(** ** C7: installing the ducking policy is idempotent *)

Lemma lookup_applyDucking (vc : VolumeConfig) (chs : gmap nat Channel) (c : nat) :
  applyDucking vc chs !! c =
  (fun ch => setDuck ch
     (if channelActive chs (priorityChannel vc) then
        Some (if bool_decide (c = priorityChannel vc) then priorityVolume vc else duckingVolume vc)
      else None)) <$> chs !! c.
Proof.
  unfold applyDucking. rewrite map_lookup_imap. by destruct (chs !! c).
Qed.

Lemma channelActive_applyDucking (vc : VolumeConfig) (chs : gmap nat Channel) (c : nat) :
  channelActive (applyDucking vc chs) c = channelActive chs c.
Proof.
  unfold channelActive at 1. rewrite lookup_applyDucking.
  unfold channelActive. by destruct (chs !! c).
Qed.

Lemma applyDucking_idempotent (vc : VolumeConfig) (chs : gmap nat Channel) :
  applyDucking vc (applyDucking vc chs) = applyDucking vc chs.
Proof.
  apply map_eq. intros c.
  rewrite (lookup_applyDucking vc (applyDucking vc chs)), channelActive_applyDucking.
  rewrite lookup_applyDucking. by destruct (chs !! c).
Qed.

(** Claim C7: calling [setVolumeDucking] twice with the same configuration
    gives every channel the same effective volume as calling it once (in
    fact the same engine state). *)
Theorem setVolumeDucking_idempotent (vc : VolumeConfig) (eng : Engine) (c : nat) :
  effectiveVolume (setVolumeDucking vc (setVolumeDucking vc eng)) c =
  effectiveVolume (setVolumeDucking vc eng) c.
Proof.
  unfold setVolumeDucking, effectiveVolume; simpl. by rewrite applyDucking_idempotent.
Qed.

Definition voiceDucking : VolumeConfig :=
  mkVolumeConfig None (1 # 4) 2 1 None None.

Definition engineVoicePlaying : Engine :=
  runEngine initialEngine
    [EChannel 0 (OpQueue defaultQueueConfig "music" defaultOptions);
     EChannel 2 (OpQueue defaultQueueConfig "voice" defaultOptions)].

Example ducking_applies_to_other_channels :
  effectiveVolume (setVolumeDucking voiceDucking engineVoicePlaying) 0 = Some (1 # 4)%Q /\
  effectiveVolume (setVolumeDucking voiceDucking engineVoicePlaying) 2 = Some 1%Q.
Proof. split; reflexivity. Qed.

(** ** C8: listener registration and removal (X19) *)

(** Claim C8: [on<Kind>(channel, callback)] should return a disposer that
    unregisters exactly that callback, as core-concepts/event-system.md
    uses it ([const cleanup = onAudioStart(0, ...); ... cleanup()]). With
    the API reference's signature [onAudioStart(...): void] no function of
    the returned value can do so: registering callback 1 and callback 2
    return the same value, while the two disposers must differ. *)
Lemma on_returns_no_disposer :
  ~ exists dispose : unit -> Registry -> Registry,
      forall (c : nat) (k : EventKind) (cb : CallbackId) (reg : Registry),
        dispose (snd (onEvent c k cb reg)) = offEvent c k (Some cb).
Proof.
  intros [dispose Hd].
  pose proof (Hd 0%nat AudioStart 1%nat []) as H1.
  pose proof (Hd 0%nat AudioStart 2%nat []) as H2.
  pose proof (f_equal (fun f => f [(0%nat, AudioStart, 1%nat)]) (eq_trans (eq_sym H1) H2)) as E.
  vm_compute in E. discriminate E.
Qed.

Lemma subscribers_offEvent (reg : Registry) (c : nat) (k : EventKind) (cb : CallbackId)
    (c' : nat) (k' : EventKind) :
  subscribers (offEvent c k (Some cb) reg) c' k' =
  List.filter (fun x => negb (bool_decide (c' = c /\ k' = k /\ x = cb))) (subscribers reg c' k').
Proof.
  induction reg as [|[[c0 k0] cb0] reg IH]; [done|].
  unfold subscribers, offEvent in *. simpl.
  repeat (case_bool_decide; simpl); rewrite ?IH; try done; naive_solver.
Qed.

Lemma offEvent_onEvent (reg : Registry) (c : nat) (k : EventKind) (cb : CallbackId) :
  ~ In cb (subscribers reg c k) -> offEvent c k (Some cb) (fst (onEvent c k cb reg)) = reg.
Proof.
  unfold onEvent; simpl. induction reg as [|[[c0 k0] cb0] reg IH]; intros Hn.
  - unfold offEvent. simpl. rewrite !bool_decide_eq_true_2 by done. done.
  - unfold subscribers in Hn. simpl in Hn. unfold offEvent in *. simpl.
    case_bool_decide as Hck; simpl in *.
    + destruct Hck as [-> ->].
      rewrite bool_decide_eq_false_2 by (intros ->; apply Hn; left; done).
      rewrite ?andb_false_r. simpl. f_equal. apply IH. unfold subscribers. tauto.
    + rewrite ?andb_false_l. simpl. f_equal. apply IH. exact Hn.
Qed.

(** X19: [on<Kind>(channel, callback)] appends the callback to that
    channel's and kind's subscribers; [off<Kind>(channel, callback)]
    removes exactly that callback from that channel and kind and leaves
    every other subscriber in place; so registering a new callback and
    then calling [off] with it restores the registry. *)
Theorem off_with_callback_removes_exactly_it (reg : Registry) (c : nat) (k : EventKind) (cb : CallbackId) :
  subscribers (fst (onEvent c k cb reg)) c k = subscribers reg c k ++ [cb] /\
  (forall (c' : nat) (k' : EventKind),
     subscribers (offEvent c k (Some cb) reg) c' k' =
     List.filter (fun x => negb (bool_decide (c' = c /\ k' = k /\ x = cb))) (subscribers reg c' k')) /\
  (~ In cb (subscribers reg c k) -> offEvent c k (Some cb) (fst (onEvent c k cb reg)) = reg).
Proof.
  split.
  - unfold onEvent, subscribers; simpl. rewrite List.filter_app, map_app. simpl.
    by rewrite bool_decide_eq_true_2.
  - split; [apply subscribers_offEvent | apply offEvent_onEvent].
Qed.

Lemma off_with_callback_removes_exactly_it_witness :
  ~ In 7%nat (subscribers [(0%nat, AudioStart, 3%nat)] 0 AudioStart) /\
  offEvent 0 AudioStart (Some 7%nat) (fst (onEvent 0 AudioStart 7%nat [(0%nat, AudioStart, 3%nat)]))
    = [(0%nat, AudioStart, 3%nat)].
Proof.
  assert (Hn : ~ In 7%nat (subscribers [(0%nat, AudioStart, 3%nat)] 0 AudioStart))
    by (simpl; lia).
  split; [exact Hn|].
  apply (proj2 (proj2 (off_with_callback_removes_exactly_it _ 0 AudioStart 7%nat))). exact Hn.
Defined.

(** ** C9: the default retry configuration *)

Lemma retryConfig_engineStep (eng : Engine) (eo : EngineOp) :
  isSetRetryConfig eo = false -> retryConfig (engineStep eng eo) = retryConfig eng.
Proof.
  destruct eo; simpl; intros; try destruct (ducking eng); done.
Qed.

Lemma retryConfig_runEngine (eos : list EngineOp) (eng : Engine) :
  Forall (fun eo => isSetRetryConfig eo = false) eos ->
  retryConfig (runEngine eng eos) = retryConfig eng.
Proof.
  revert eng. induction eos as [|eo rest IH]; intros eng H; [done|].
  inversion H as [|? ? Heo Hrest]; subst. unfold runEngine in *. simpl.
  rewrite IH by exact Hrest. by apply retryConfig_engineStep.
Qed.

(** Claim C9: as long as [setRetryConfig] has not been called, whatever
    else happened, [getRetryConfig()] returns the documented defaults:
    enabled, 3 retries, 1000 ms base delay, 10000 ms load timeout,
    exponential backoff (delays 1000 * 2^n ms: 1s, 2s, 4s, 8s, ...), no
    skipping on failure and no fallback URLs. *)
Theorem default_retry_config (eos : list EngineOp)
    (Hno : Forall (fun eo => isSetRetryConfig eo = false) eos) :
  getRetryConfig (runEngine initialEngine eos) = defaultRetryConfig /\
  enabled defaultRetryConfig = true /\ maxRetries defaultRetryConfig = 3%nat /\
  baseDelay defaultRetryConfig = 1000%N /\ timeoutMs defaultRetryConfig = 10000%N /\
  exponentialBackoff defaultRetryConfig = true /\ skipOnFailure defaultRetryConfig = false /\
  fallbackUrls defaultRetryConfig = [] /\
  (forall n : nat, retryDelay defaultRetryConfig n = (1000 * 2 ^ N.of_nat n)%N).
Proof.
  split; [unfold getRetryConfig; by rewrite retryConfig_runEngine|].
  repeat split.
Qed.

Lemma default_retry_config_witness :
  getRetryConfig (runEngine initialEngine
    [ESetQueueConfig defaultQueueConfig;
     EChannel 0 (OpQueue defaultQueueConfig "a" defaultOptions)]) = defaultRetryConfig.
Proof.
  apply (proj1 (default_retry_config _ ltac:(repeat constructor))).
Defined.

(* ================================================================== *)
(** * Further properties of the modelled API *)

(** ** Splice helpers *)

Lemma length_remove_at {A} (i : nat) (l : list A) :
  (i < length l)%nat -> length (remove_at i l) = (length l - 1)%nat.
Proof. intros. unfold remove_at. rewrite length_app, length_take, length_drop. lia. Qed.

Lemma lookup_remove_at {A} (i k : nat) (l : list A) :
  (i < length l)%nat ->
  remove_at i l !! k = l !! (if (k <? i)%nat then k else S k).
Proof.
  intros Hi. unfold remove_at. destruct (Nat.ltb_spec k i).
  - rewrite lookup_app_l by (rewrite length_take; lia). by rewrite lookup_take_lt.
  - rewrite lookup_app_r by (rewrite length_take; lia).
    rewrite lookup_drop, length_take. f_equal. lia.
Qed.

Lemma length_insert_at {A} (i : nat) (x : A) (l : list A) :
  length (insert_at i x l) = S (length l).
Proof. unfold insert_at. rewrite length_app, length_take. simpl. rewrite length_drop. lia. Qed.

Lemma lookup_insert_at_eq {A} (i : nat) (x : A) (l : list A) :
  (i <= length l)%nat -> insert_at i x l !! i = Some x.
Proof. intros. unfold insert_at. apply list_lookup_middle. by rewrite length_take_le. Qed.

Lemma lookup_insert_at_lt {A} (i k : nat) (x : A) (l : list A) :
  (k < i)%nat -> (i <= length l)%nat -> insert_at i x l !! k = l !! k.
Proof.
  intros. unfold insert_at.
  rewrite lookup_app_l by (rewrite length_take; lia). by rewrite lookup_take_lt.
Qed.

Lemma perm_insert_at {A} (i : nat) (x : A) (l : list A) :
  insert_at i x l ≡ₚ x :: l.
Proof.
  unfold insert_at. rewrite <- Permutation_middle. by rewrite take_drop.
Qed.

Lemma perm_remove_at {A} (i : nat) (x : A) (l : list A) :
  l !! i = Some x -> x :: remove_at i l ≡ₚ l.
Proof.
  intros H. unfold remove_at. rewrite Permutation_middle. by rewrite take_drop_middle.
Qed.

Lemma setQueue_queue (ch : Channel) : setQueue ch (queue ch) = ch.
Proof. by destruct ch. Qed.

Lemma setQueue_setQueue (ch : Channel) (q q' : list QueueEntry) :
  setQueue (setQueue ch q) q' = setQueue ch q'.
Proof. done. Qed.

(** ** Queue manipulation on valid slots *)

(** X1: [removeQueuedItem] on a slot [1 <= i < length] succeeds, returns
    the new queue in [updatedQueue], shortens the queue by one, keeps the
    in-flight item, and shifts every later item down by one slot. *)
Theorem removeQueuedItem_valid (ch : Channel) (i : Z)
  (Hi : 1 <= i < Z.of_nat (length (queue ch))) :
  exists q', removeQueuedItem i ch = (setQueue ch q', okWith (setQueue ch q')) /\
    length q' = (length (queue ch) - 1)%nat /\
    head q' = head (queue ch) /\
    forall k : nat, q' !! k = queue ch !! (if (k <? Z.to_nat i)%nat then k else S k).
Proof.
  exists (remove_at (Z.to_nat i) (queue ch)).
  unfold removeQueuedItem. rewrite (proj2 (validSlot_spec _ _) Hi).
  split; [done|]. split; [apply length_remove_at; lia|].
  assert (Hk : forall k : nat, remove_at (Z.to_nat i) (queue ch) !! k
                 = queue ch !! (if (k <? Z.to_nat i)%nat then k else S k))
    by (intros k; apply lookup_remove_at; lia).
  split; [|exact Hk].
  rewrite !head_lookup, Hk. destruct (Nat.ltb_spec 0 (Z.to_nat i)); [done|lia].
Qed.

Definition chanAB : Channel :=
  fst (run emptyChannel [OpQueue defaultQueueConfig "a" defaultOptions;
                         OpQueue defaultQueueConfig "b" defaultOptions;
                         OpQueue defaultQueueConfig "c" defaultOptions]).

Lemma removeQueuedItem_valid_witness :
  1 <= 1 < Z.of_nat (length (queue chanAB)) /\
  exists q', removeQueuedItem 1 chanAB = (setQueue chanAB q', okWith (setQueue chanAB q')) /\
    length q' = (length (queue chanAB) - 1)%nat /\
    head q' = head (queue chanAB) /\
    forall k : nat, q' !! k = queue chanAB !! (if (k <? Z.to_nat 1)%nat then k else S k).
Proof.
  assert (H : 1 <= 1 < Z.of_nat (length (queue chanAB)))
    by (vm_compute; split; [discriminate|reflexivity]).
  split; [exact H|]. exact (removeQueuedItem_valid chanAB 1 H).
Defined.

(** X2: [reorderQueue] with both indices valid succeeds; the new queue is
    a permutation of the old one, keeps the in-flight item, and holds the
    moved item at the target slot. *)
Theorem reorderQueue_valid (ch : Channel) (i j : Z)
  (Hi : 1 <= i < Z.of_nat (length (queue ch)))
  (Hj : 1 <= j < Z.of_nat (length (queue ch))) :
  exists q', reorderQueue i j ch = (setQueue ch q', okWith (setQueue ch q')) /\
    q' ≡ₚ queue ch /\
    head q' = head (queue ch) /\
    q' !! Z.to_nat j = queue ch !! Z.to_nat i.
Proof.
  destruct (lookup_lt_is_Some_2 (queue ch) (Z.to_nat i)) as [e He]; [lia|].
  exists (insert_at (Z.to_nat j) e (remove_at (Z.to_nat i) (queue ch))).
  unfold reorderQueue.
  rewrite (proj2 (validSlot_spec _ _) Hi), (proj2 (validSlot_spec _ _) Hj). simpl.
  rewrite He. split; [done|].
  assert (Hlen : length (remove_at (Z.to_nat i) (queue ch)) = (length (queue ch) - 1)%nat)
    by (apply length_remove_at; lia).
  split; [|split].
  - rewrite perm_insert_at. by apply perm_remove_at.
  - rewrite !head_lookup, lookup_insert_at_lt by lia.
    rewrite lookup_remove_at by lia. destruct (Nat.ltb_spec 0 (Z.to_nat i)); [done|lia].
  - apply lookup_insert_at_eq. lia.
Qed.

Lemma reorderQueue_valid_witness :
  1 <= 2 < Z.of_nat (length (queue chanAB)) /\
  1 <= 1 < Z.of_nat (length (queue chanAB)) /\
  exists q', reorderQueue 2 1 chanAB = (setQueue chanAB q', okWith (setQueue chanAB q')) /\
    q' ≡ₚ queue chanAB /\
    head q' = head (queue chanAB) /\
    q' !! Z.to_nat 1 = queue chanAB !! Z.to_nat 2.
Proof.
  assert (H2 : 1 <= 2 < Z.of_nat (length (queue chanAB)))
    by (vm_compute; split; [discriminate|reflexivity]).
  assert (H1 : 1 <= 1 < Z.of_nat (length (queue chanAB)))
    by (vm_compute; split; [discriminate|reflexivity]).
  split; [exact H2|]. split; [exact H1|].
  exact (reorderQueue_valid chanAB 2 1 H2 H1).
Defined.

(** X3: [swapQueueItems] with both slots valid succeeds, exchanges the two
    items, leaves every other slot alone, and swapping the same two slots
    again restores the original channel. *)
Theorem swapQueueItems_valid (ch : Channel) (a b : Z)
  (Ha : 1 <= a < Z.of_nat (length (queue ch)))
  (Hb : 1 <= b < Z.of_nat (length (queue ch))) :
  exists q', swapQueueItems a b ch = (setQueue ch q', okWith (setQueue ch q')) /\
    q' !! Z.to_nat a = queue ch !! Z.to_nat b /\
    q' !! Z.to_nat b = queue ch !! Z.to_nat a /\
    (forall k : nat, k <> Z.to_nat a -> k <> Z.to_nat b -> q' !! k = queue ch !! k) /\
    fst (swapQueueItems a b (setQueue ch q')) = ch.
Proof.
  destruct (lookup_lt_is_Some_2 (queue ch) (Z.to_nat a)) as [ea Hea]; [lia|].
  destruct (lookup_lt_is_Some_2 (queue ch) (Z.to_nat b)) as [eb Heb]; [lia|].
  set (q' := <[Z.to_nat a := eb]> (<[Z.to_nat b := ea]> (queue ch))).
  assert (Hq : forall k, q' !! k =
            if decide (k = Z.to_nat a) then Some eb
            else if decide (k = Z.to_nat b) then Some ea else queue ch !! k).
  { intros k. subst q'. rewrite !list_lookup_insert, !length_insert.
    repeat case_decide; subst; try done; try lia. }
  assert (Hlen : length q' = length (queue ch)) by (subst q'; by rewrite !length_insert).
  exists q'. unfold swapQueueItems.
  rewrite (proj2 (validSlot_spec _ _) Ha), (proj2 (validSlot_spec _ _) Hb). simpl.
  rewrite Hea, Heb. split; [done|].
  split; [|split; [|split]].
  - rewrite Hq. by case_decide.
  - rewrite Hq. repeat case_decide; congruence.
  - intros k Hka Hkb. rewrite Hq. by repeat case_decide.
  - assert (Ha' : validSlot q' a = true) by (apply validSlot_spec; by rewrite Hlen).
    assert (Hb' : validSlot q' b = true) by (apply validSlot_spec; by rewrite Hlen).
    unfold swapQueueItems. simpl. rewrite Ha', Hb'. simpl.
    rewrite !Hq. repeat case_decide; try congruence.
    all: cbn [fst]; rewrite setQueue_setQueue;
      etransitivity; [|apply setQueue_queue]; f_equal;
      apply list_eq; intros k; rewrite !list_lookup_insert, !length_insert, ?Hlen, Hq;
      repeat case_decide; destruct_and?; subst; congruence || lia.
Qed.

Lemma swapQueueItems_valid_witness :
  1 <= 1 < Z.of_nat (length (queue chanAB)) /\
  1 <= 2 < Z.of_nat (length (queue chanAB)) /\
  exists q', swapQueueItems 1 2 chanAB = (setQueue chanAB q', okWith (setQueue chanAB q')) /\
    q' !! Z.to_nat 1 = queue chanAB !! Z.to_nat 2 /\
    q' !! Z.to_nat 2 = queue chanAB !! Z.to_nat 1 /\
    (forall k : nat, k <> Z.to_nat 1 -> k <> Z.to_nat 2 -> q' !! k = queue chanAB !! k) /\
    fst (swapQueueItems 1 2 (setQueue chanAB q')) = chanAB.
Proof.
  assert (H1 : 1 <= 1 < Z.of_nat (length (queue chanAB)))
    by (vm_compute; split; [discriminate|reflexivity]).
  assert (H2 : 1 <= 2 < Z.of_nat (length (queue chanAB)))
    by (vm_compute; split; [discriminate|reflexivity]).
  split; [exact H1|]. split; [exact H2|].
  exact (swapQueueItems_valid chanAB 1 2 H1 H2).
Defined.

(** ** Engine-level helpers *)

Lemma lookup_reduck (d : option VolumeConfig) (chs : gmap nat Channel) (c : nat) :
  reduck d chs !! c =
  (fun ch => match d with Some _ => setDuck ch (expectedDuck d chs c) | None => ch end)
    <$> chs !! c.
Proof.
  destruct d as [vc|]; simpl.
  - rewrite lookup_applyDucking. reflexivity.
  - by destruct (chs !! c).
Qed.

Lemma channelActive_reduck (d : option VolumeConfig) (chs : gmap nat Channel) (c : nat) :
  channelActive (reduck d chs) c = channelActive chs c.
Proof. destruct d; [apply channelActive_applyDucking|done]. Qed.

Lemma expectedDuck_reduck (d : option VolumeConfig) (chs : gmap nat Channel) (c : nat) :
  expectedDuck d (reduck d chs) c = expectedDuck d chs c.
Proof. unfold expectedDuck. destruct d; [by rewrite channelActive_reduck|done]. Qed.

Lemma engineStep_EChannel (eng : Engine) (c : nat) (o : Op) :
  engineStep eng (EChannel c o) =
  mkEngine (reduck (ducking eng)
              (<[c := fst (step (default emptyChannel (channels eng !! c))
                                (withConfig (queueConfig eng) o))]> (channels eng)))
    (ducking eng) (retryConfig eng) (queueConfig eng) (listeners eng).
Proof. reflexivity. Qed.

Lemma duckState_step (ch : Channel) (o : Op) : duckState (fst (step ch o)) = duckState ch.
Proof.
  destruct ch as [q st v d m].
  destruct o; simpl;
    unfold queueAudioPriority, queueAudio, removeQueuedItem, reorderQueue,
      swapQueueItems, clearQueueAfterCurrent, stopCurrentAudioInChannel,
      audioStarted, pauseChannel, resumeChannel, audioEnded, advance, startHead;
    simpl; repeat (case_match; simpl); reflexivity.
Qed.

Lemma chanInv_setDuck (ch : Channel) (d : option Q) : chanInv (setDuck ch d) <-> chanInv ch.
Proof. by destruct ch. Qed.

Lemma chanInv_stopAllAudioInChannel (ch : Channel) : chanInv (stopAllAudioInChannel ch).
Proof. split; simpl; tauto. Qed.

(** Every channel of the engine satisfies the channel invariant. *)
Definition engInv (eng : Engine) : Prop :=
  forall c ch, channels eng !! c = Some ch -> chanInv ch.

(** Every channel of the engine is on the ducking level of the policy. *)
Definition duckInv (eng : Engine) : Prop :=
  forall c ch, channels eng !! c = Some ch ->
  duckState ch = expectedDuck (ducking eng) (channels eng) c.

Lemma engInv_reduck (d : option VolumeConfig) (chs : gmap nat Channel) :
  (forall c ch, chs !! c = Some ch -> chanInv ch) ->
  forall c ch, reduck d chs !! c = Some ch -> chanInv ch.
Proof.
  intros H c ch Hc. rewrite lookup_reduck in Hc.
  destruct (chs !! c) as [ch0|] eqn:E; [|done]. injection Hc as <-.
  destruct d; [apply chanInv_setDuck|]; eauto.
Qed.

Lemma duckInv_reduck (d : option VolumeConfig) (chs : gmap nat Channel) :
  (d = None -> forall c ch, chs !! c = Some ch -> duckState ch = None) ->
  forall c ch, reduck d chs !! c = Some ch -> duckState ch = expectedDuck d (reduck d chs) c.
Proof.
  intros H c ch Hc. rewrite expectedDuck_reduck. rewrite lookup_reduck in Hc.
  destruct (chs !! c) as [ch0|] eqn:E; [|done]. injection Hc as <-.
  destruct d; [done|]. simpl. eauto.
Qed.

Lemma engInv_command (eng : Engine) (cmd : Command) : engInv eng -> engInv (command eng cmd).
Proof.
  intros H. destruct cmd as [eo| |c0|]; [destruct eo as [rc|qc|vc| |c0 o|c0 k cb|c0 k ocb]|..].
  - exact H.
  - exact H.
  - intros c ch Hc. exact (engInv_reduck (Some vc) _ H c ch Hc).
  - intros c ch Hc. simpl in Hc. rewrite lookup_fmap in Hc.
    destruct (channels eng !! c) eqn:E; [|done]. injection Hc as <-.
    apply chanInv_setDuck. eauto.
  - unfold engInv. cbn [command]. rewrite engineStep_EChannel. cbn [channels]. apply engInv_reduck.
    intros c ch Hc. destruct (decide (c = c0)) as [->|Hne].
    + rewrite lookup_insert_eq in Hc. injection Hc as <-. apply chanInv_step.
      destruct (channels eng !! c0) eqn:E; simpl; [eauto|apply chanInv_emptyChannel].
    + rewrite lookup_insert_ne in Hc by congruence. eauto.
  - exact H.
  - exact H.
  - unfold engInv. cbn [command stopAllAudio channels]. apply engInv_reduck.
    intros c ch Hc. rewrite lookup_fmap in Hc.
    destruct (channels eng !! c); [|done]. injection Hc as <-.
    apply chanInv_stopAllAudioInChannel.
  - unfold engInv. cbn [command destroyChannel channels]. apply engInv_reduck.
    intros c ch Hc.
    destruct (decide (c = c0)) as [->|Hne].
    + by rewrite lookup_delete_eq in Hc.
    + rewrite lookup_delete_ne in Hc by congruence. eauto.
  - intros c ch Hc. simpl in Hc. by rewrite lookup_empty in Hc.
Qed.

Lemma duckInv_command (eng : Engine) (cmd : Command) : duckInv eng -> duckInv (command eng cmd).
Proof.
  intros H. destruct cmd as [eo| |c0|]; [destruct eo as [rc|qc|vc| |c0 o|c0 k cb|c0 k ocb]|..].
  - exact H.
  - exact H.
  - intros c ch Hc. exact (duckInv_reduck (Some vc) _ ltac:(done) c ch Hc).
  - intros c ch Hc. simpl in Hc. rewrite lookup_fmap in Hc.
    destruct (channels eng !! c) eqn:E; [|done]. by injection Hc as <-.
  - unfold duckInv. cbn [command]. rewrite engineStep_EChannel. cbn [channels ducking].
    apply duckInv_reduck. intros Hd c ch Hc.
    assert (Hn : forall c' ch', channels eng !! c' = Some ch' -> duckState ch' = None)
      by (intros c' ch' E; rewrite (H c' ch' E), Hd; done).
    destruct (decide (c = c0)) as [->|Hne].
    + rewrite lookup_insert_eq in Hc. injection Hc as <-. rewrite duckState_step.
      destruct (channels eng !! c0) eqn:E; simpl; [eauto|done].
    + rewrite lookup_insert_ne in Hc by congruence. eauto.
  - exact H.
  - exact H.
  - unfold duckInv. cbn [command stopAllAudio channels ducking].
    apply duckInv_reduck. intros Hd c ch Hc. rewrite lookup_fmap in Hc.
    destruct (channels eng !! c) eqn:E; [|done]. injection Hc as <-. simpl.
    rewrite (H c _ E), Hd. done.
  - unfold duckInv. cbn [command destroyChannel channels ducking].
    apply duckInv_reduck. intros Hd c ch Hc.
    destruct (decide (c = c0)) as [->|Hne].
    + by rewrite lookup_delete_eq in Hc.
    + rewrite lookup_delete_ne in Hc by congruence. rewrite (H c _ Hc), Hd. done.
  - intros c ch Hc. simpl in Hc. by rewrite lookup_empty in Hc.
Qed.

Lemma runCommands_cons (eng : Engine) (cmd : Command) (rest : list Command) :
  runCommands eng (cmd :: rest) = runCommands (command eng cmd) rest.
Proof. reflexivity. Qed.

Lemma runCommands_inv (P : Engine -> Prop) :
  (forall eng cmd, P eng -> P (command eng cmd)) ->
  forall cmds eng, P eng -> P (runCommands eng cmds).
Proof.
  intros Hstep cmds. induction cmds as [|cmd rest IH]; intros eng H; [done|].
  rewrite runCommands_cons. apply IH, Hstep, H.
Qed.

Lemma engInv_reachable (cmds : list Command) : engInv (runCommands initialEngine cmds).
Proof.
  apply runCommands_inv; [apply engInv_command|].
  intros c ch Hc. simpl in Hc. by rewrite lookup_empty in Hc.
Qed.

Lemma duckInv_reachable (cmds : list Command) : duckInv (runCommands initialEngine cmds).
Proof.
  apply runCommands_inv; [apply duckInv_command|].
  intros c ch Hc. simpl in Hc. by rewrite lookup_empty in Hc.
Qed.

(** ** Queue inspection *)

Lemma getQueueLength_default (eng : Engine) (c : nat) :
  getQueueLength c eng = length (queue (default emptyChannel (channels eng !! c))).
Proof. unfold getQueueLength. by destruct (channels eng !! c). Qed.

Lemma queue_engineStep_same (eng : Engine) (c : nat) (o : Op) :
  queue <$> channels (engineStep eng (EChannel c o)) !! c =
  Some (queue (fst (step (default emptyChannel (channels eng !! c)) (withConfig (queueConfig eng) o)))).
Proof.
  rewrite engineStep_EChannel. cbn [channels].
  rewrite lookup_reduck, lookup_insert_eq. simpl. by destruct (ducking eng).
Qed.

Lemma lookup_engineStep_other (eng : Engine) (c c' : nat) (o : Op) :
  c' <> c ->
  channels (engineStep eng (EChannel c o)) !! c' =
  (fun ch => match ducking eng with
             | Some _ => setDuck ch (expectedDuck (ducking eng)
                           (<[c := fst (step (default emptyChannel (channels eng !! c))
                                             (withConfig (queueConfig eng) o))]> (channels eng)) c')
             | None => ch
             end) <$> channels eng !! c'.
Proof.
  intros Hne. rewrite engineStep_EChannel. cbn [channels].
  rewrite lookup_reduck, lookup_insert_ne by congruence. reflexivity.
Qed.

Lemma srcOpts_startHead (ch : Channel) :
  (fun e => (src e, options e)) <$> queue (startHead ch) =
  (fun e => (src e, options e)) <$> queue ch.
Proof. destruct ch as [q st v d m]. unfold startHead; simpl. by destruct st, q. Qed.

Lemma length_startHead (ch : Channel) : length (queue (startHead ch)) = length (queue ch).
Proof. destruct ch as [q st v d m]. unfold startHead; simpl. by destruct st, q. Qed.

Lemma queueAudio_plain_accept (cfg : QueueConfig) (s : string) (opts : AudioQueueOptions) (ch : Channel) :
  addToFront opts = false -> priority opts = false -> notFull cfg ch opts ->
  queueAudio cfg s opts ch = (startHead (setQueue ch (queue ch ++ [mkEntry s opts false])), None).
Proof.
  intros Hf Hp Hroom. unfold notFull in Hroom. unfold queueAudio, placeEntry. rewrite Hf, Hp. simpl.
  destruct (limitOf cfg ch opts) as [m|]; [|done].
  destruct (Nat.leb_spec m (length (queue ch))); [lia|done].
Qed.

(** X4: [getQueueItemInfo] finds an item exactly at the slots
    [0 <= i < getQueueLength]; negative slots, slots past the end and
    channels never used give [null]. *)
Theorem getQueueItemInfo_range (eng : Engine) (c : nat) (i : Z) :
  is_Some (getQueueItemInfo i c eng) <-> 0 <= i < Z.of_nat (getQueueLength c eng).
Proof.
  unfold getQueueItemInfo, getQueueLength.
  destruct (Z.ltb_spec i 0).
  - split; [intros [? H']; discriminate | lia].
  - destruct (channels eng !! c) as [ch|].
    + rewrite fmap_is_Some, lookup_lt_is_Some. lia.
    + split; [intros [? H']; discriminate | simpl; lia].
Qed.

(** X5: a plain [queueAudio] (neither [addToFront] nor [priority]) on a
    channel below its applicable size limit lengthens its queue by one,
    and [getQueueItemInfo] at the old length returns the new item, with
    its source and loop flag. *)
Theorem enqueue_then_item_info (eng : Engine) (c : nat) (cfg : QueueConfig) (s : string)
  (opts : AudioQueueOptions)
  (Hfront : addToFront opts = false) (Hprio : priority opts = false)
  (Hroom : notFull (queueConfig eng) (default emptyChannel (channels eng !! c)) opts) :
  getQueueLength c (engineStep eng (EChannel c (OpQueue cfg s opts))) = S (getQueueLength c eng) /\
  exists it, getQueueItemInfo (Z.of_nat (getQueueLength c eng)) c
               (engineStep eng (EChannel c (OpQueue cfg s opts))) = Some it /\
    itemSrc it = s /\ isLooping it = loop opts.
Proof.
  pose proof (queue_engineStep_same eng c (OpQueue cfg s opts)) as Hq.
  cbn [withConfig step fst] in Hq.
  rewrite (queueAudio_plain_accept _ _ _ _ Hfront Hprio Hroom) in Hq. cbn [fst] in Hq.
  set (ch0 := default emptyChannel (channels eng !! c)) in *.
  set (q1 := queue (startHead (setQueue ch0 (queue ch0 ++ [mkEntry s opts false])))) in *.
  assert (Hsrc : (fun e => (src e, options e)) <$> q1 =
                 (fun e => (src e, options e)) <$> (queue ch0 ++ [mkEntry s opts false]))
    by (subst q1; apply srcOpts_startHead).
  assert (Hlen : length q1 = S (length (queue ch0))).
  { rewrite <- (length_fmap (fun e => (src e, options e)) q1), Hsrc, length_fmap, length_app.
    simpl. lia. }
  rewrite (getQueueLength_default eng c). fold ch0.
  destruct (channels (engineStep eng (EChannel c (OpQueue cfg s opts))) !! c) as [ch1|] eqn:E;
    [|discriminate]. injection Hq as Hq.
  split; [unfold getQueueLength; rewrite E, Hq; exact Hlen|].
  assert (Hn : ((fun e => (src e, options e)) <$> q1) !! length (queue ch0) = Some (s, opts)).
  { rewrite Hsrc, list_lookup_fmap, lookup_app_r, Nat.sub_diag by lia. done. }
  rewrite list_lookup_fmap in Hn.
  destruct (q1 !! length (queue ch0)) as [e|] eqn:Ee; [|discriminate]. injection Hn as Hs Ho.
  exists (toItem e). unfold getQueueItemInfo. rewrite E, Hq.
  destruct (Z.ltb_spec (Z.of_nat (length (queue ch0))) 0); [lia|].
  rewrite Nat2Z.id, Ee. simpl. split; [done|]. unfold toItem; simpl. by rewrite Hs, Ho.
Qed.

Definition loopOptions : AudioQueueOptions := mkOptions false true None false None.

Lemma enqueue_then_item_info_witness :
  addToFront loopOptions = false /\ priority loopOptions = false /\
  notFull (queueConfig initialEngine) (default emptyChannel (channels initialEngine !! 0%nat)) loopOptions /\
  getQueueLength 0 (engineStep initialEngine (EChannel 0 (OpQueue defaultQueueConfig "bgm" loopOptions)))
    = S (getQueueLength 0 initialEngine) /\
  exists it, getQueueItemInfo (Z.of_nat (getQueueLength 0 initialEngine)) 0
               (engineStep initialEngine (EChannel 0 (OpQueue defaultQueueConfig "bgm" loopOptions))) = Some it /\
    itemSrc it = "bgm"%string /\ isLooping it = loop loopOptions.
Proof.
  assert (Hr : notFull (queueConfig initialEngine)
                 (default emptyChannel (channels initialEngine !! 0%nat)) loopOptions)
    by (vm_compute; exact I).
  split; [reflexivity|]. split; [reflexivity|]. split; [exact Hr|].
  exact (enqueue_then_item_info initialEngine 0 defaultQueueConfig "bgm" loopOptions
           eq_refl eq_refl Hr).
Defined.

(** X6: an operation on one channel leaves every other channel's queue
    length, item information and snapshot unchanged. *)
Theorem channel_ops_isolated (eng : Engine) (c c' : nat) (o : Op) (Hne : c' <> c) :
  getQueueLength c' (engineStep eng (EChannel c o)) = getQueueLength c' eng /\
  (forall i, getQueueItemInfo i c' (engineStep eng (EChannel c o)) = getQueueItemInfo i c' eng) /\
  getQueueSnapshot c' (engineStep eng (EChannel c o)) = getQueueSnapshot c' eng.
Proof.
  unfold getQueueLength, getQueueItemInfo, getQueueSnapshot.
  rewrite (lookup_engineStep_other eng c c' o Hne).
  destruct (channels eng !! c'); simpl; [|done].
  destruct (ducking eng); simpl; done.
Qed.

Definition duckingRun : list Command :=
  [CEngine (ESetVolumeDucking (mkVolumeConfig None (1 # 5) 1 1 None None));
   CEngine (EChannel 0 (OpQueue defaultQueueConfig "music" defaultOptions));
   CEngine (EChannel 1 (OpQueue defaultQueueConfig "voice" defaultOptions))].

Lemma channel_ops_isolated_witness :
  (1%nat <> 0%nat) /\
  getQueueLength 1 (engineStep (runCommands initialEngine duckingRun) (EChannel 0 OpStopAll)) = getQueueLength 1 (runCommands initialEngine duckingRun) /\
  (forall i, getQueueItemInfo i 1 (engineStep (runCommands initialEngine duckingRun) (EChannel 0 OpStopAll))
             = getQueueItemInfo i 1 (runCommands initialEngine duckingRun)) /\
  getQueueSnapshot 1 (engineStep (runCommands initialEngine duckingRun) (EChannel 0 OpStopAll))
    = getQueueSnapshot 1 (runCommands initialEngine duckingRun).
Proof.
  assert (H : 1%nat <> 0%nat) by lia.
  split; [exact H|]. exact (channel_ops_isolated (runCommands initialEngine duckingRun) 0 1 OpStopAll H).
Defined.

(** X7: in every reachable engine state the snapshot of a channel counts
    its items, and its [currentlyPlaying] is the source of index 0, [null]
    exactly when the queue is empty. *)
Theorem snapshot_currentlyPlaying (cmds : list Command) (c : nat) :
  totalItems (getQueueSnapshot c (runCommands initialEngine cmds))
    = getQueueLength c (runCommands initialEngine cmds) /\
  totalItems (getQueueSnapshot c (runCommands initialEngine cmds))
    = length (items (getQueueSnapshot c (runCommands initialEngine cmds))) /\
  currentlyPlaying (getQueueSnapshot c (runCommands initialEngine cmds))
    = itemSrc <$> head (items (getQueueSnapshot c (runCommands initialEngine cmds))) /\
  (currentlyPlaying (getQueueSnapshot c (runCommands initialEngine cmds)) = None <->
   totalItems (getQueueSnapshot c (runCommands initialEngine cmds)) = 0%nat).
Proof.
  pose proof (engInv_reachable cmds c) as Hinv.
  rewrite getQueueLength_default. unfold getQueueSnapshot.
  destruct (channels (runCommands initialEngine cmds) !! c) as [ch|]; simpl; [|done].
  specialize (Hinv ch eq_refl). destruct Hinv as [_ Hh].
  unfold queueSnapshotOf, snapshot; simpl. rewrite length_map.
  destruct (queue ch) as [|e t]; simpl; [done|].
  destruct Hh as [-> _]. split; [done|]. split; [done|]. split; [done|].
  split; discriminate.
Qed.

(** X8: in every reachable engine state the level a channel is ducked to
    (the end level of its duck or restore transition; the 250 ms fade
    itself is not modelled) is [priorityVolume] on the priority channel
    and [duckingVolume] on the others while the priority channel is
    active, and none (back to the channel's own volume) when it is not or
    no ducking is configured. *)
Theorem ducking_target_follows_priority (cmds : list Command) (c : nat) (ch : Channel)
  (Hc : channels (runCommands initialEngine cmds) !! c = Some ch) :
  duckState ch =
  match ducking (runCommands initialEngine cmds) with
  | Some vc =>
      if channelActive (channels (runCommands initialEngine cmds)) (priorityChannel vc)
      then Some (if bool_decide (c = priorityChannel vc) then priorityVolume vc else duckingVolume vc)
      else None
  | None => None
  end.
Proof.
  rewrite (duckInv_reachable cmds c ch Hc). unfold expectedDuck.
  destruct (ducking (runCommands initialEngine cmds)); [|done].
  by destruct (channelActive _ _).
Qed.

Lemma ducking_target_follows_priority_witness :
  channels (runCommands initialEngine duckingRun) !! 0%nat
    = Some (default emptyChannel (channels (runCommands initialEngine duckingRun) !! 0%nat)) /\
  duckState (default emptyChannel (channels (runCommands initialEngine duckingRun) !! 0%nat)) =
  match ducking (runCommands initialEngine duckingRun) with
  | Some vc =>
      if channelActive (channels (runCommands initialEngine duckingRun)) (priorityChannel vc)
      then Some (if bool_decide (0%nat = priorityChannel vc) then priorityVolume vc else duckingVolume vc)
      else None
  | None => None
  end.
Proof.
  assert (H : channels (runCommands initialEngine duckingRun) !! 0%nat
    = Some (default emptyChannel (channels (runCommands initialEngine duckingRun) !! 0%nat)))
    by (vm_compute; reflexivity).
  split; [exact H|].
  exact (ducking_target_follows_priority duckingRun 0 _ H).
Defined.

(** ** Stopping and teardown *)

Lemma channelActive_stopAll (chs : gmap nat Channel) (c : nat) :
  channelActive (stopAllAudioInChannel <$> chs) c = false.
Proof.
  unfold channelActive. rewrite lookup_fmap.
  by destruct (chs !! c).
Qed.

(** X9: after [stopAllAudio] from any reachable state every channel has an
    empty queue and nothing playing and is inactive, and no channel keeps a
    ducking level: its duck is released, so its restore transition (not
    modelled) heads back to its own volume. *)
Theorem stopAllAudio_silences (cmds : list Command) (c : nat) :
  getQueueLength c (stopAllAudio (runCommands initialEngine cmds)) = 0%nat /\
  getQueueSnapshot c (stopAllAudio (runCommands initialEngine cmds)) = mkSnapshot [] 0 None /\
  channelActive (channels (stopAllAudio (runCommands initialEngine cmds))) c = false /\
  (forall ch, channels (stopAllAudio (runCommands initialEngine cmds)) !! c = Some ch ->
   duckState ch = None).
Proof.
  pose proof (duckInv_reachable cmds) as Hd.
  set (eng := runCommands initialEngine cmds) in *.
  split; [|split; [|split]].
  - unfold getQueueLength, stopAllAudio. cbn [channels].
    rewrite lookup_reduck, lookup_fmap.
    destruct (channels eng !! c); simpl; [|done]. by destruct (ducking eng).
  - unfold getQueueSnapshot, stopAllAudio. cbn [channels].
    rewrite lookup_reduck, lookup_fmap.
    destruct (channels eng !! c); simpl; [|done]. by destruct (ducking eng).
  - unfold stopAllAudio. cbn [channels]. rewrite channelActive_reduck.
    apply channelActive_stopAll.
  - intros ch'. unfold stopAllAudio. cbn [channels].
    rewrite lookup_reduck, lookup_fmap.
    destruct (channels eng !! c) as [ch|] eqn:E; simpl; [|done].
    intros Hch. injection Hch as <-.
    destruct (ducking eng) as [vc|] eqn:Ed; simpl.
    + unfold expectedDuck. by rewrite channelActive_stopAll.
    + rewrite (Hd c ch E), Ed. done.
Qed.

Lemma subscribers_filter_channel (reg : Registry) (c c' : nat) (k : EventKind) :
  subscribers (List.filter (fun '(c0, _, _) => negb (bool_decide (c0 = c))) reg) c' k =
  if bool_decide (c' = c) then [] else subscribers reg c' k.
Proof.
  induction reg as [|[[c0 k0] cb0] reg IH]; [by case_bool_decide|].
  unfold subscribers in *. simpl.
  destruct (decide (c0 = c)) as [->|Hne].
  - rewrite bool_decide_eq_true_2 by done. simpl. rewrite IH.
    case_bool_decide as Hc; [done|]. rewrite bool_decide_eq_false_2 by naive_solver. done.
  - rewrite bool_decide_eq_false_2 by done. simpl.
    destruct (bool_decide (c0 = c' /\ k0 = k)) eqn:E; simpl; rewrite IH; [|done].
    apply bool_decide_eq_true_1 in E. destruct E as [-> _].
    rewrite bool_decide_eq_false_2 by done. done.
Qed.

(** X10: [destroyChannel c] removes every listener of channel [c] and
    empties it, and leaves the listeners and the queue of every other
    channel as they were. *)
Theorem destroyChannel_scoped (eng : Engine) (c c' : nat) (k : EventKind) :
  subscribers (listeners (destroyChannel c eng)) c' k =
    (if bool_decide (c' = c) then [] else subscribers (listeners eng) c' k) /\
  getQueueLength c' (destroyChannel c eng) =
    (if bool_decide (c' = c) then 0%nat else getQueueLength c' eng) /\
  getQueueSnapshot c' (destroyChannel c eng) =
    (if bool_decide (c' = c) then mkSnapshot [] 0 None else getQueueSnapshot c' eng).
Proof.
  split; [apply subscribers_filter_channel|].
  unfold getQueueLength, getQueueSnapshot, destroyChannel. cbn [channels].
  rewrite !lookup_reduck, !lookup_delete.
  case_bool_decide as Hc; [rewrite decide_True by congruence; done|].
  rewrite decide_False by congruence.
  destruct (channels eng !! c'); simpl; [|done]. by destruct (ducking eng).
Qed.

(** X11: [off<Kind>(channel)] without a callback removes every callback of
    that channel and kind, and no other subscription. *)
Theorem off_without_callback (reg : Registry) (c : nat) (k : EventKind) (c' : nat) (k' : EventKind) :
  subscribers (offEvent c k None reg) c' k' =
  if bool_decide (c' = c /\ k' = k) then [] else subscribers reg c' k'.
Proof.
  induction reg as [|[[c0 k0] cb0] reg IH]; [by case_bool_decide|].
  unfold subscribers, offEvent in *. simpl. rewrite andb_true_r.
  destruct (decide (c0 = c /\ k0 = k)) as [[-> ->]|Hne].
  - rewrite bool_decide_eq_true_2 by done. simpl. rewrite IH.
    case_bool_decide as Hc; [done|]. rewrite bool_decide_eq_false_2 by naive_solver. done.
  - rewrite bool_decide_eq_false_2 by done. simpl.
    destruct (bool_decide (c0 = c' /\ k0 = k')) eqn:E; simpl; rewrite IH; [|done].
    apply bool_decide_eq_true_1 in E. destruct E as [-> ->].
    rewrite bool_decide_eq_false_2 by naive_solver. done.
Qed.

(** ** Queue limits *)

Lemma length_placeEntry (opts : AudioQueueOptions) (e : QueueEntry) (q : list QueueEntry) :
  length (placeEntry opts e q) = S (length q).
Proof.
  unfold placeEntry. destruct (addToFront opts || priority opts).
  - apply length_insert_at.
  - rewrite length_app. simpl. lia.
Qed.

(** X12: with [dropOldestWhenFull], a plain enqueue on a full queue that
    holds at least two items is accepted: the oldest queued item (slot 1)
    is evicted, the new item is appended, and the length stays the same. *)
Theorem dropOldest_evicts_slot_one (cfg : QueueConfig) (s : string) (opts : AudioQueueOptions)
  (ch : Channel) (m : nat)
  (Hdrop : dropOldestWhenFull cfg = true) (Hlim : limitOf cfg ch opts = Some m)
  (Hfull : (m <= length (queue ch))%nat) (Hlong : (2 <= length (queue ch))%nat)
  (Hfront : addToFront opts = false) (Hprio : priority opts = false) :
  snd (queueAudio cfg s opts ch) = None /\
  map src (queue (fst (queueAudio cfg s opts ch))) = map src (remove_at 1 (queue ch)) ++ [s] /\
  length (queue (fst (queueAudio cfg s opts ch))) = length (queue ch).
Proof.
  unfold queueAudio. rewrite Hlim.
  destruct (Nat.leb_spec m (length (queue ch))) as [_|]; [|lia]. rewrite Hdrop.
  destruct (queue ch) as [|a [|b t]] eqn:Eq; simpl in Hlong; try lia.
  cbn [fst snd]. split; [done|]. rewrite map_src_startHead, length_startHead. cbn [queue setQueue].
  unfold placeEntry. rewrite Hfront, Hprio. simpl.
  rewrite map_app, length_app. simpl. rewrite drop_0. split; [done|lia].
Qed.

Definition dropOldestConfig : QueueConfig := mkQueueConfig (Some 2%nat) true true.

Lemma dropOldest_evicts_slot_one_witness :
  dropOldestWhenFull dropOldestConfig = true /\
  limitOf dropOldestConfig (fst (run emptyChannel
    [OpQueue dropOldestConfig "a" defaultOptions; OpQueue dropOldestConfig "b" defaultOptions]))
    defaultOptions = Some 2%nat /\
  snd (queueAudio dropOldestConfig "c" defaultOptions (fst (run emptyChannel
    [OpQueue dropOldestConfig "a" defaultOptions; OpQueue dropOldestConfig "b" defaultOptions]))) = None /\
  map src (queue (fst (queueAudio dropOldestConfig "c" defaultOptions (fst (run emptyChannel
    [OpQueue dropOldestConfig "a" defaultOptions; OpQueue dropOldestConfig "b" defaultOptions])))))
  = map src (remove_at 1 (queue (fst (run emptyChannel
    [OpQueue dropOldestConfig "a" defaultOptions; OpQueue dropOldestConfig "b" defaultOptions])))) ++ ["c"%string] /\
  length (queue (fst (queueAudio dropOldestConfig "c" defaultOptions (fst (run emptyChannel
    [OpQueue dropOldestConfig "a" defaultOptions; OpQueue dropOldestConfig "b" defaultOptions])))))
  = length (queue (fst (run emptyChannel
    [OpQueue dropOldestConfig "a" defaultOptions; OpQueue dropOldestConfig "b" defaultOptions]))).
Proof.
  split; [reflexivity|]. split; [reflexivity|].
  apply (dropOldest_evicts_slot_one dropOldestConfig "c" defaultOptions _ 2);
    reflexivity || (vm_compute; lia).
Defined.

(** X13: a full queue whose only item is the in-flight one rejects a new
    item with [QueueFullError], whatever [dropOldestWhenFull] says: the
    current item is never evicted. *)
Theorem full_queue_never_evicts_current (cfg : QueueConfig) (s : string) (opts : AudioQueueOptions)
  (ch : Channel) (m : nat)
  (Hlim : limitOf cfg ch opts = Some m)
  (Hfull : (m <= length (queue ch))%nat) (Hshort : (length (queue ch) <= 1)%nat) :
  queueAudio cfg s opts ch = (ch, Some (QueueFullError m)).
Proof.
  unfold queueAudio. rewrite Hlim.
  destruct (Nat.leb_spec m (length (queue ch))) as [_|]; [|lia].
  destruct (dropOldestWhenFull cfg); [|done].
  destruct (queue ch) as [|a [|b t]]; simpl in Hshort; done || lia.
Qed.

Definition oneSlotConfig : QueueConfig := mkQueueConfig (Some 1%nat) true true.

Lemma full_queue_never_evicts_current_witness :
  limitOf oneSlotConfig (fst (run emptyChannel [OpQueue oneSlotConfig "a" defaultOptions]))
    defaultOptions = Some 1%nat /\
  queueAudio oneSlotConfig "b" defaultOptions (fst (run emptyChannel [OpQueue oneSlotConfig "a" defaultOptions]))
  = (fst (run emptyChannel [OpQueue oneSlotConfig "a" defaultOptions]), Some (QueueFullError 1)).
Proof.
  split; [reflexivity|].
  apply full_queue_never_evicts_current; reflexivity || (vm_compute; lia).
Defined.

(** X14: an enqueue never takes a queue past the limit that applies to
    it: if the queue was within the limit, it still is afterwards. *)
Theorem queueAudio_within_limit (cfg : QueueConfig) (s : string) (opts : AudioQueueOptions)
  (ch : Channel) (m : nat)
  (Hlim : limitOf cfg ch opts = Some m) (Hle : (length (queue ch) <= m)%nat) :
  (length (queue (fst (queueAudio cfg s opts ch))) <= m)%nat.
Proof.
  unfold queueAudio. rewrite Hlim.
  destruct (Nat.leb_spec m (length (queue ch))).
  - destruct (dropOldestWhenFull cfg); [|simpl; lia].
    destruct (queue ch) as [|a [|b t]] eqn:Eq; cbn [fst]; [rewrite Eq; exact Hle|rewrite Eq; exact Hle|].
    rewrite length_startHead. cbn [queue setQueue]. rewrite length_placeEntry.
    unfold remove_at. simpl in *. rewrite drop_0. lia.
  - cbn [fst]. rewrite length_startHead. cbn [queue setQueue]. rewrite length_placeEntry. lia.
Qed.

Lemma queueAudio_within_limit_witness :
  limitOf dropOldestConfig (fst (run emptyChannel
    [OpQueue dropOldestConfig "a" defaultOptions; OpQueue dropOldestConfig "b" defaultOptions]))
    defaultOptions = Some 2%nat /\
  (length (queue (fst (run emptyChannel
    [OpQueue dropOldestConfig "a" defaultOptions; OpQueue dropOldestConfig "b" defaultOptions]))) <= 2)%nat /\
  (length (queue (fst (queueAudio dropOldestConfig "c" (withFront defaultOptions) (fst (run emptyChannel
    [OpQueue dropOldestConfig "a" defaultOptions; OpQueue dropOldestConfig "b" defaultOptions]))))) <= 2)%nat.
Proof.
  assert (Hl : limitOf dropOldestConfig (fst (run emptyChannel
    [OpQueue dropOldestConfig "a" defaultOptions; OpQueue dropOldestConfig "b" defaultOptions]))
    (withFront defaultOptions) = Some 2%nat) by reflexivity.
  assert (Hle : (length (queue (fst (run emptyChannel
    [OpQueue dropOldestConfig "a" defaultOptions; OpQueue dropOldestConfig "b" defaultOptions]))) <= 2)%nat)
    by (vm_compute; lia).
  split; [reflexivity|]. split; [exact Hle|].
  exact (queueAudio_within_limit dropOldestConfig "c" (withFront defaultOptions) _ 2 Hl Hle).
Defined.

(** ** Retry schedule *)

Lemma drop_nth_error {A} (l : list A) (i : nat) (x : A) :
  nth_error l i = Some x -> drop i l = x :: drop (S i) l.
Proof.
  revert i. induction l as [|y l IH]; intros [|i] H; simpl in *; try discriminate.
  - by injection H as ->.
  - by apply IH.
Qed.

Lemma failingLoads_S (cfg : RetryConfig) (st : RetryState) (f : nat) :
  failingLoads cfg st (S f) =
  let '(d, st') := onLoadFailure cfg st in
  match d with
  | TerminalError _ _ => [d]
  | _ => d :: failingLoads cfg st' f
  end.
Proof. reflexivity. Qed.

Lemma onLoadFailure_fallback (cfg : RetryConfig) (a i : nat) (url : string) :
  nth_error (fallbackUrls cfg) i = Some url ->
  onLoadFailure cfg (mkRetryState a i) = (UseFallback url, mkRetryState a (S i)).
Proof. intros E. unfold onLoadFailure. simpl. by rewrite E. Qed.

Lemma onLoadFailure_retry (cfg : RetryConfig) (a : nat) :
  enabled cfg = true -> (a < maxRetries cfg)%nat ->
  onLoadFailure cfg (mkRetryState a (length (fallbackUrls cfg))) =
  (ScheduleRetry (retryDelay cfg a), mkRetryState (S a) (length (fallbackUrls cfg))).
Proof.
  intros Hen Ha. unfold onLoadFailure. simpl.
  rewrite (proj2 (nth_error_None _ _)) by lia. rewrite Hen.
  destruct (Nat.ltb_spec a (maxRetries cfg)); [done|lia].
Qed.

Lemma onLoadFailure_terminal (cfg : RetryConfig) (a : nat) :
  enabled cfg = false \/ (maxRetries cfg <= a)%nat ->
  onLoadFailure cfg (mkRetryState a (length (fallbackUrls cfg))) =
  (TerminalError a (skipOnFailure cfg), mkRetryState a (length (fallbackUrls cfg))).
Proof.
  intros H. unfold onLoadFailure. simpl.
  rewrite (proj2 (nth_error_None _ _)) by lia.
  destruct H as [-> | H]; [done|].
  destruct (enabled cfg); [|done]. destruct (Nat.ltb_spec a (maxRetries cfg)); [lia|done].
Qed.

Lemma failingLoads_fallbacks (cfg : RetryConfig) (k i a fuel : nat) :
  (i + k = length (fallbackUrls cfg))%nat ->
  failingLoads cfg (mkRetryState a i) (k + fuel) =
  map UseFallback (drop i (fallbackUrls cfg)) ++
  failingLoads cfg (mkRetryState a (length (fallbackUrls cfg))) fuel.
Proof.
  revert i. induction k as [|k IH]; intros i Hik.
  - replace i with (length (fallbackUrls cfg)) by lia. by rewrite drop_ge.
  - destruct (nth_error (fallbackUrls cfg) i) as [url|] eqn:E.
    + rewrite (drop_nth_error _ _ _ E). cbn [Nat.add].
      rewrite failingLoads_S, (onLoadFailure_fallback _ _ _ _ E). cbn beta iota zeta.
      rewrite (IH (S i)) by lia. done.
    + apply nth_error_None in E. lia.
Qed.

Lemma failingLoads_retries (cfg : RetryConfig) (k a fuel : nat) :
  enabled cfg = true -> (a + k = maxRetries cfg)%nat ->
  failingLoads cfg (mkRetryState a (length (fallbackUrls cfg))) (S (k + fuel)) =
  map (fun n => ScheduleRetry (retryDelay cfg n)) (seq a k) ++
  [TerminalError (maxRetries cfg) (skipOnFailure cfg)].
Proof.
  intros Hen. revert a. induction k as [|k IH]; intros a Hak.
  - rewrite failingLoads_S, onLoadFailure_terminal by lia. cbn beta iota zeta.
    by replace a with (maxRetries cfg) by lia.
  - rewrite failingLoads_S, onLoadFailure_retry by (done || lia). cbn beta iota zeta.
    change (S k + fuel)%nat with (S (k + fuel)). rewrite (IH (S a)) by lia. done.
Qed.

(** X15: when every load of an entry fails, the retry manager first tries
    each fallback URL in order, then schedules [maxRetries] retries with
    delays [retryDelay 0], [retryDelay 1], ... (none when retrying is
    disabled), then emits the terminal error with the attempt count. *)
Theorem failingLoads_schedule (cfg : RetryConfig) (fuel : nat)
  (Hfuel : (length (fallbackUrls cfg) + (if enabled cfg then maxRetries cfg else 0) < fuel)%nat) :
  failingLoads cfg initialRetryState fuel =
  map UseFallback (fallbackUrls cfg) ++
  map (fun n => ScheduleRetry (retryDelay cfg n))
      (seq 0 (if enabled cfg then maxRetries cfg else 0)) ++
  [TerminalError (if enabled cfg then maxRetries cfg else 0) (skipOnFailure cfg)].
Proof.
  set (r := if enabled cfg then maxRetries cfg else 0%nat) in *.
  replace fuel with (length (fallbackUrls cfg) + S (r + (fuel - S (length (fallbackUrls cfg) + r))))%nat
    by lia.
  unfold initialRetryState. rewrite failingLoads_fallbacks by lia. rewrite drop_0. f_equal.
  subst r. destruct (enabled cfg) eqn:Hen.
  - apply failingLoads_retries; [done|lia].
  - rewrite failingLoads_S, onLoadFailure_terminal by tauto. done.
Qed.

Definition retryWithFallbacks : RetryConfig :=
  mkRetryConfig 500%N true true ["a.ogg"; "a.wav"]%string 2 true 10000%N.

Lemma failingLoads_schedule_witness :
  (length (fallbackUrls retryWithFallbacks)
     + (if enabled retryWithFallbacks then maxRetries retryWithFallbacks else 0) < 10)%nat /\
  failingLoads retryWithFallbacks initialRetryState 10 =
  map UseFallback (fallbackUrls retryWithFallbacks) ++
  map (fun n => ScheduleRetry (retryDelay retryWithFallbacks n))
      (seq 0 (if enabled retryWithFallbacks then maxRetries retryWithFallbacks else 0)) ++
  [TerminalError (if enabled retryWithFallbacks then maxRetries retryWithFallbacks else 0)
     (skipOnFailure retryWithFallbacks)].
Proof.
  assert (H : (length (fallbackUrls retryWithFallbacks)
     + (if enabled retryWithFallbacks then maxRetries retryWithFallbacks else 0) < 10)%nat)
    by (simpl; lia).
  split; [exact H|]. exact (failingLoads_schedule retryWithFallbacks 10 H).
Defined.

(** ** Stopping the current item *)

(** X16: on any channel reached through the channel operations,
    [stopCurrentAudioInChannel] drops the in-flight item: the remaining
    sources are the old queue without index 0, and the next item, if any,
    becomes the in-flight item and starts loading; otherwise the channel
    is idle. *)
Theorem stopCurrent_starts_next (ops : list Op) :
  map src (queue (stopCurrentAudioInChannel (fst (run emptyChannel ops))))
    = map src (tail (queue (fst (run emptyChannel ops)))) /\
  status (stopCurrentAudioInChannel (fst (run emptyChannel ops)))
    = match tail (queue (fst (run emptyChannel ops))) with [] => Idle | _ :: _ => Loading end /\
  headPlaying (queue (stopCurrentAudioInChannel (fst (run emptyChannel ops))))
    = match tail (queue (fst (run emptyChannel ops))) with [] => false | _ :: _ => true end.
Proof.
  pose proof (chanInv_run ops emptyChannel chanInv_emptyChannel) as [Hiq _].
  destruct (fst (run emptyChannel ops)) as [q st v d m]. simpl in *.
  unfold stopCurrentAudioInChannel. simpl.
  destruct (decide (st = Idle)) as [->|Hst].
  - rewrite (proj1 Hiq eq_refl). done.
  - unfold advance. simpl. destruct q as [|e [|x t]]; simpl.
    + exfalso. apply Hst, Hiq. done.
    + done.
    + done.
Qed.

(** ** Playing flags and automatic start *)

(** X17: in every reachable engine state, [getQueueItemInfo] reports
    [isCurrentlyPlaying] for slot 0 and for no other slot. *)
Theorem item_info_playing_flag (cmds : list Command) (c : nat) (i : Z) :
  isCurrentlyPlaying <$> getQueueItemInfo i c (runCommands initialEngine cmds) =
  (fun _ => bool_decide (i = 0)) <$> getQueueItemInfo i c (runCommands initialEngine cmds).
Proof.
  pose proof (engInv_reachable cmds c) as Hinv.
  unfold getQueueItemInfo.
  destruct (Z.ltb_spec i 0); [done|].
  destruct (channels (runCommands initialEngine cmds) !! c) as [ch|]; [|done].
  destruct (Hinv ch eq_refl) as [_ Hh].
  destruct (queue ch) as [|e t]; [done|]. destruct Hh as [He Ht].
  destruct (Z.to_nat i) as [|n] eqn:Ei; simpl.
  - rewrite He. rewrite bool_decide_eq_true_2 by lia. done.
  - destruct (t !! n) as [x|] eqn:Ex; [|done]. simpl.
    rewrite (Forall_lookup_1 _ _ _ _ Ht Ex). rewrite bool_decide_eq_false_2 by lia. done.
Qed.



